(** * A growable text buffer with snapshot undo/redo (src/main.cpp)

    The development embeds the three classes of [src/main.cpp] --
    [Memento], [CareTaker] and [DynamicArray] -- at the level of the
    C++ abstract machine:

    - a [char] array is a list of cells whose length is the size of the
      allocation; a cell is [None] while it holds an indeterminate value
      ([new char[n]] does not initialise) and [Some b] once written;
    - [size_t] values are integers in [[0, 2^64)] and every arithmetic
      operation on them wraps; an offset added to a pointer is an exact
      integer;
    - [memcpy], [memmove], [strcpy] and indexed writes are defined only
      inside the allocations they touch; outside, the operation has no
      defined result and the whole call is a [Fault];
    - [new] always succeeds, and what [delete[]] frees is never read
      again, so the heap is not represented beyond the arrays in use;
    - the text printed on [std::cout] is returned next to the new state;
    - the loop of [append] runs on fuel; 64 doublings are shown to be
      all a [size_t] capacity can take ([append_fuel_enough]).

    The menu loop, [findText] and the two file operations are outside
    the statements proved here and are not embedded. *)

From Stdlib Require Import ZArith Lia Strings.Byte String.
From stdpp Require Import base tactics option list.

Local Open Scope Z_scope.

(** ** Machine integers *)

Definition SIZE_WIDTH : Z := 64.

(** Reduction of an integer to [size_t]. *)
Definition wrap (z : Z) : Z := z mod 2 ^ SIZE_WIDTH.

Definition size_add (a b : Z) : Z := wrap (a + b).
Definition size_sub (a b : Z) : Z := wrap (a - b).
Definition size_mul (a b : Z) : Z := wrap (a * b).

Declare Scope size_scope.
Delimit Scope size_scope with size.
Arguments size_add (a b)%_size.
Arguments size_sub (a b)%_size.
Arguments size_mul (a b)%_size.
Infix "+" := size_add : size_scope.
Infix "-" := size_sub : size_scope.
Infix "*" := size_mul : size_scope.

(** ** Raw memory *)

(** One [char] of storage. *)
Definition cell : Type := option byte.

Definition NUL : byte := x00.

(** [new char[n]]: [n] cells, none of them initialised. *)
Definition new_char (n : Z) : list cell := replicate (Z.to_nat n) None.

(** The [n] cells at [buf + off], when that range lies in the allocation. *)
Definition load (buf : list cell) (off n : Z) : option (list cell) :=
  if decide (0 <= off ∧ 0 <= n ∧ off + n <= Z.of_nat (length buf))
  then Some (take (Z.to_nat n) (drop (Z.to_nat off) buf))
  else None.

(** Overwrite the cells at [buf + off] with [src], when they all exist. *)
Definition store (buf : list cell) (off : Z) (src : list cell)
  : option (list cell) :=
  if decide (0 <= off ∧ off + Z.of_nat (length src) <= Z.of_nat (length buf))
  then Some (take (Z.to_nat off) buf ++ src
               ++ drop (Z.to_nat off + length src) buf)
  else None.

(** [std::memcpy(dst + doff, src + soff, n)] between two allocations. *)
Definition memcpy (dst : list cell) (doff : Z) (src : list cell) (soff n : Z)
  : option (list cell) :=
  load src soff n ≫= store dst doff.

(** [std::memmove(buf + doff, buf + soff, n)] inside one allocation. *)
Definition memmove (buf : list cell) (doff soff n : Z) : option (list cell) :=
  load buf soff n ≫= store buf doff.

(** ** C strings *)

(** The characters a [const char*] argument denotes: those before the
    first terminator of the caller's [std::string]. *)
Fixpoint cstring (text : list byte) : list byte :=
  match text with
  | [] => []
  | b :: rest => if Byte.eqb b NUL then [] else b :: cstring rest
  end.

Definition strlen (text : list byte) : Z := Z.of_nat (length (cstring text)).

(** What [strcpy] writes: the characters and the terminator. *)
Definition strcpy_image (text : list byte) : list cell :=
  (Some <$> cstring text) ++ [Some NUL].

(** [std::string::c_str()] of a string whose characters were copied out
    of a buffer: reading it up to the terminator is defined only when no
    indeterminate character comes first. *)
Fixpoint c_str (s : list cell) : option (list byte) :=
  match s with
  | [] => Some []
  | None :: _ => None
  | Some b :: rest =>
      if Byte.eqb b NUL then Some [] else cons b <$> c_str rest
  end.

(** What a reader of the C string that starts an array sees: the
    characters before the first terminator.  There is no defined result
    when an indeterminate character or the end of the array comes
    first. *)
Fixpoint read_cstring (buf : list cell) : option (list byte) :=
  match buf with
  | [] => None
  | None :: _ => None
  | Some b :: rest =>
      if Byte.eqb b NUL then Some [] else cons b <$> read_cstring rest
  end.

(** [needle] is what [hay] begins with. *)
Fixpoint starts_with (needle hay : list byte) : bool :=
  match needle, hay with
  | [], _ => true
  | _ :: _, [] => false
  | x :: needle', y :: hay' => Byte.eqb x y && starts_with needle' hay'
  end.

(** [std::strstr] on the characters of two C strings: the offset of the
    first occurrence of [needle] in [hay], [None] for a null pointer.
    An empty [needle] is found at offset 0. *)
Fixpoint strstr (hay needle : list byte) : option nat :=
  if starts_with needle hay then Some 0%nat
  else
    match hay with
    | [] => None
    | _ :: hay' => S <$> strstr hay' needle
    end.

(** ** Outcomes *)

(** The lines the program prints. *)
Inductive Message : Type :=
| InvalidPositionOrLength   (* "Invalid position or length.\n" *)
| InvalidPosition           (* "Invalid position.\n" *)
| CannotUndoFurther         (* "Cannot undo further.\n" *)
| CannotRedoFurther.        (* "Cannot redo further.\n" *)

(** The lines the two file operations print, with the file name. *)
Inductive FileMessage : Type :=
| SavedTo (filename : string)           (* "Saved to " filename *)
| FailedToSaveTo (filename : string)    (* "Failed to save to " filename *)
| LoadedFrom (filename : string)        (* "Loaded from " filename *)
| FailedToLoadFrom (filename : string). (* "Failed to load from " filename *)

Inductive Outcome (A : Type) : Type :=
| Done (a : A)      (* the call returns *)
| Fault             (* an access outside an allocation, or a read of an
                       indeterminate character that decides control flow *)
| OutOfFuel.        (* the loop bound of the model was reached *)

Arguments Done {A} a.
Arguments Fault {A}.
Arguments OutOfFuel {A}.

Definition obind {A B} (o : Outcome A) (k : A -> Outcome B) : Outcome B :=
  match o with
  | Done a => k a
  | Fault => Fault
  | OutOfFuel => OutOfFuel
  end.

(** A step that is defined or faults. *)
Definition defined {A} (o : option A) : Outcome A :=
  match o with
  | Some a => Done a
  | None => Fault
  end.

Notation "'let*' x := o 'in' k" := (obind o (fun x => k))
  (at level 10, x name, o at level 100, k at level 200,
   format "'[v' 'let*'  x  :=  o  'in' '/' k ']'").
Notation "'let?' x := o 'in' k" := (obind (defined o) (fun x => k))
  (at level 10, x name, o at level 100, k at level 200,
   format "'[v' 'let?'  x  :=  o  'in' '/' k ']'").

(** ** Memento *)

Record Memento : Type := {
  savedData : list cell;
  savedSize : Z;
  savedCapacity : Z
}.

(** The constructor: allocate [capacity] cells, copy [size] of them. *)
Definition Memento_new (data : list cell) (size capacity : Z)
  : option Memento :=
  saved ← memcpy (new_char capacity) 0 data 0 size;
  Some {| savedData := saved; savedSize := size; savedCapacity := capacity |}.

(** ** CareTaker *)

(** [std::vector::back] and [pop_back] in one step. *)
Definition pop_back {A} (v : list A) : option (list A * A) :=
  match reverse v with
  | [] => None
  | x :: r => Some (reverse r, x)
  end.

Module CareTaker.

Record t : Type := {
  undoStack : list Memento;
  redoStack : list Memento
}.

Definition empty : t := {| undoStack := []; redoStack := [] |}.

Definition saveState (data : list cell) (size capacity : Z) (c : t)
  : option t :=
  memento ← Memento_new data size capacity;
  Some {| undoStack := undoStack c ++ [memento]; redoStack := [] |}.

Definition pushToUndo (data : list cell) (size capacity : Z) (c : t)
  : option t :=
  memento ← Memento_new data size capacity;
  Some {| undoStack := undoStack c ++ [memento];
          redoStack := redoStack c |}.

Definition pushToRedo (data : list cell) (size capacity : Z) (c : t)
  : option t :=
  memento ← Memento_new data size capacity;
  Some {| undoStack := undoStack c;
          redoStack := redoStack c ++ [memento] |}.

(** [nullptr] is [None]. *)
Definition undo (c : t) : option Memento * t :=
  match pop_back (undoStack c) with
  | Some (rest, memento) =>
      (Some memento, {| undoStack := rest; redoStack := redoStack c |})
  | None => (None, c)
  end.

Definition redo (c : t) : option Memento * t :=
  match pop_back (redoStack c) with
  | Some (rest, memento) =>
      (Some memento, {| undoStack := undoStack c; redoStack := rest |})
  | None => (None, c)
  end.

End CareTaker.

(** ** DynamicArray *)

Module DynamicArray.

Record t : Type := {
  data : list cell;
  size : Z;
  capacity : Z;
  careTaker : CareTaker.t;
  clipboard : list cell
}.

Definition set_data (d : list cell) (a : t) : t :=
  {| data := d; size := size a; capacity := capacity a;
     careTaker := careTaker a; clipboard := clipboard a |}.
Definition set_size (n : Z) (a : t) : t :=
  {| data := data a; size := n; capacity := capacity a;
     careTaker := careTaker a; clipboard := clipboard a |}.
Definition set_capacity (n : Z) (a : t) : t :=
  {| data := data a; size := size a; capacity := n;
     careTaker := careTaker a; clipboard := clipboard a |}.
Definition set_careTaker (c : CareTaker.t) (a : t) : t :=
  {| data := data a; size := size a; capacity := capacity a;
     careTaker := c; clipboard := clipboard a |}.
Definition set_clipboard (s : list cell) (a : t) : t :=
  {| data := data a; size := size a; capacity := capacity a;
     careTaker := careTaker a; clipboard := s |}.

(** A call: the new object and what was printed, or no defined result. *)
Definition Call : Type := t -> Outcome (t * list Message).

Definition quiet (a : t) : Outcome (t * list Message) := Done (a, []).
Definition say (m : Message) (a : t) : Outcome (t * list Message) :=
  Done (a, [m]).

(** One call after another. *)
Definition andThen (f g : Call) : Call := fun a =>
  let* r1 := f a in
  let* r2 := g (fst r1) in
  Done (fst r2, snd r1 ++ snd r2).

Definition resize (newCapacity : Z) (a : t) : option t :=
  newData ← memcpy (new_char newCapacity) 0 (data a) 0 (size a);
  Some (set_capacity newCapacity (set_data newData a)).

(** The constructor. *)
Definition new : t :=
  {| data := <[0%nat := Some NUL]> (new_char 10);
     size := 0;
     capacity := 10;
     careTaker := CareTaker.empty;
     clipboard := [] |}.

(** [careTaker.saveState(data, size, capacity)] as every editing
    method calls it. *)
Definition saveState (a : t) : option t :=
  c ← CareTaker.saveState (data a) (size a) (capacity a) (careTaker a);
  Some (set_careTaker c a).

(** The loop of [append]: one unit of fuel per doubling. *)
Fixpoint append_grow (fuel : nat) (len : Z) (a : t) : Outcome t :=
  if (size a + len)%size >=? capacity a then
    match fuel with
    | O => OutOfFuel
    | S fuel' =>
        let? a' := resize (capacity a * 2)%size a in
        append_grow fuel' len a'
    end
  else Done a.

(** Doubling a [size_t] more than [SIZE_WIDTH] times leaves zero, from
    where the loop of the source cannot leave either. *)
Definition append_fuel : nat := 64.

Definition append (text : list byte) : Call := fun a =>
  let? a := saveState a in
  let len := strlen text in
  let* a := append_grow append_fuel len a in
  let? d := store (data a) (size a) (strcpy_image text) in
  quiet (set_size (size a + len)%size (set_data d a)).

Definition insertAndReplace (pos : Z) (substring : list byte)
    (replaceLen : Z) : Call := fun a =>
  let? a := saveState a in
  let len := strlen substring in
  let? a := (if (size a + len - replaceLen)%size >=? capacity a
         then resize ((size a + len - replaceLen) * 2)%size a
         else Some a) in
  let? d := memmove (data a) (pos + len) (pos + replaceLen)
                (size a - pos - replaceLen + 1)%size in
  let? d := memcpy d pos (Some <$> cstring substring) 0 len in
  quiet (set_size (size a + len - replaceLen)%size (set_data d a)).

(** The range test shared by [deleteText], [cutText] and [copyText]. *)
Definition invalid_range (pos len : Z) (a : t) : bool :=
  (pos >=? size a) || ((pos + len)%size >? size a).

Definition deleteText (pos len : Z) : Call := fun a =>
  let? a := saveState a in
  if invalid_range pos len a then say InvalidPositionOrLength a
  else
    let? d := memmove (data a) pos (pos + len) (size a - pos - len)%size in
    let a := set_size (size a - len)%size (set_data d a) in
    let? d := store (data a) (size a) [Some NUL] in
    quiet (set_data d a).

Definition copyText (pos len : Z) : Call := fun a =>
  if invalid_range pos len a then say InvalidPositionOrLength a
  else
    let? s := load (data a) pos len in
    quiet (set_clipboard s a).

Definition cutText (pos len : Z) : Call := fun a =>
  let? a := saveState a in
  if invalid_range pos len a then say InvalidPositionOrLength a
  else andThen (copyText pos len) (deleteText pos len) a.

Definition pasteText (pos : Z) : Call := fun a =>
  let? a := saveState a in
  if pos >? size a then say InvalidPosition a
  else
    let? text := c_str (clipboard a) in
    insertAndReplace pos text 0 a.

(** The body shared by [undo] and [redo] once a memento was popped. *)
Definition restore (memento : Memento) (a : t)
  : Outcome (t * list Message) :=
  let? a := (if decide (capacity a ≠ savedCapacity memento)
         then resize (savedCapacity memento) a
         else Some a) in
  let? d := memcpy (data a) 0 (savedData memento) 0 (savedSize memento) in
  let a := set_size (savedSize memento) (set_data d a) in
  let? d := store (data a) (size a) [Some NUL] in
  quiet (set_data d a).

Definition undo : Call := fun a =>
  let? c := CareTaker.pushToRedo (data a) (size a) (capacity a) (careTaker a) in
  match CareTaker.undo c with
  | (Some memento, c') => restore memento (set_careTaker c' a)
  | (None, c') => say CannotUndoFurther (set_careTaker c' a)
  end.

Definition redo : Call := fun a =>
  let? c := CareTaker.pushToUndo (data a) (size a) (capacity a) (careTaker a) in
  match CareTaker.redo c with
  | (Some memento, c') => restore memento (set_careTaker c' a)
  | (None, c') => say CannotRedoFurther (set_careTaker c' a)
  end.

(** [getText()] is read up to [size]: the logical content. *)
Definition content (a : t) : list cell := take (Z.to_nat (size a)) (data a).

(** The character at [data[size]]. *)
Definition terminator (a : t) : option cell := data a !! Z.to_nat (size a).

(** [getText()] hands out the array itself; whoever prints it reads a
    C string from its start. *)
Definition getText (a : t) : list cell := data a.

(** [(size_t) -1], what [findText] returns for a null pointer. *)
Definition NOT_FOUND : Z := wrap (-1).

Definition findText (search : list byte) (a : t) : Outcome Z :=
  let? hay := read_cstring (data a) in
  Done (match strstr hay (cstring search) with
        | Some offset => Z.of_nat offset
        | None => NOT_FOUND
        end).

(** [saveToFile]: [is_open] is whether the output stream could be
    opened.  The result is what the file holds afterwards, [None] when
    nothing was written to it. *)
Definition saveToFile (filename : string) (is_open : bool) (a : t)
  : Outcome (option (list byte) * FileMessage) :=
  if is_open then
    let? text := read_cstring (data a) in
    Done (Some text, SavedTo filename)
  else Done (None, FailedToSaveTo filename).

(** [loadFromFile]: [file] is what the input stream delivers, [None]
    when it could not be opened. *)
Definition loadFromFile (filename : string) (file : option (list byte))
    (a : t) : Outcome (t * FileMessage) :=
  match file with
  | Some content =>
      let size := Z.of_nat (length content) in
      let capacity := (size + 1)%size in
      let? d := store (new_char capacity) 0 (strcpy_image content) in
      Done ({| data := d; size := size; capacity := capacity;
               careTaker := careTaker a; clipboard := clipboard a |},
            LoadedFrom filename)
  | None => Done (a, FailedToLoadFrom filename)
  end.

End DynamicArray.

Import DynamicArray.

Definition text_of (s : string) : list byte := list_byte_of_string s.

(** A series of calls on one object, with everything they print. *)
Definition calls (cs : list Call) : Call :=
  foldr andThen quiet cs.

(** ** The editing calls as data *)

Inductive Edit : Type :=
| Append (text : list byte)
| InsertAndReplace (pos : Z) (substring : list byte) (replaceLen : Z)
| DeleteText (pos len : Z)
| CutText (pos len : Z)
| PasteText (pos : Z).

Definition perform (e : Edit) : Call :=
  match e with
  | Append text => append text
  | InsertAndReplace pos substring replaceLen =>
      insertAndReplace pos substring replaceLen
  | DeleteText pos len => deleteText pos len
  | CutText pos len => cutText pos len
  | PasteText pos => pasteText pos
  end.

(** ** Vocabulary of the statements *)

(** The memento that [Memento_new] builds from an object. *)
Definition snapshot (a : t) : Memento :=
  {| savedData := take (Z.to_nat (size a)) (data a)
                    ++ replicate (Z.to_nat (capacity a - size a)) None;
     savedSize := size a;
     savedCapacity := capacity a |}.

(** The object once [saveState] has run: one more memento to undo,
    nothing left to redo. *)
Definition recorded (a : t) : t :=
  set_careTaker
    {| CareTaker.undoStack :=
         CareTaker.undoStack (careTaker a) ++ [snapshot a];
       CareTaker.redoStack := [] |} a.

(** What the constructor of [Memento] needs from the object it copies. *)
Definition storable (a : t) : Prop :=
  0 <= size a <= capacity a ∧ size a <= Z.of_nat (length (data a)).

(** The array has [capacity] cells and the text is shorter than that. *)
Definition allocated (a : t) : Prop :=
  0 <= size a < capacity a ∧ capacity a < 2 ^ 64
  ∧ Z.of_nat (length (data a)) = capacity a.

(** The representation invariant of the class: the array has [capacity]
    cells, the text is shorter than that, and every character of the
    text and of the clipboard has been written. *)
Definition wf (a : t) : Prop :=
  0 <= size a < capacity a ∧ capacity a < 2 ^ 64
  ∧ Z.of_nat (length (data a)) = capacity a
  ∧ Forall is_Some (content a)
  ∧ Forall is_Some (clipboard a).

(** The text is followed by its terminator. *)
Definition terminated (a : t) : Prop := terminator a = Some (Some NUL).

(** The range accepted by [deleteText], [cutText] and [copyText]. *)
Definition valid_range (pos len : Z) (a : t) : Prop :=
  0 <= pos < size a ∧ 0 <= len ∧ pos + len <= size a.

(** Arguments with which an editing call stays inside its arrays: a
    position and a replaced span inside the text for
    [insertAndReplace], [size_t] arguments whose sum does not wrap for
    the range calls, and a resulting text below half the range of
    [size_t], so that doubling a capacity cannot wrap. *)
Definition proper (e : Edit) (a : t) : Prop :=
  match e with
  | Append text => size a + strlen text < 2 ^ 63
  | InsertAndReplace pos substring replaceLen =>
      0 <= pos ∧ 0 <= replaceLen ∧ pos + replaceLen <= size a
      ∧ size a + strlen substring < 2 ^ 63
  | DeleteText pos len | CutText pos len =>
      0 <= pos ∧ 0 <= len ∧ pos + len < 2 ^ 64
  | PasteText pos =>
      0 <= pos ∧ size a + Z.of_nat (length (clipboard a)) < 2 ^ 63
  end.

(** The three observable parts of the buffer. *)
Definition buffer (a : t) : list cell * Z * Z :=
  (content a, size a, capacity a).

(** The buffer a call returns with. *)
Definition buffer_after (r : Outcome (t * list Message))
  : Outcome (list cell * Z * Z) :=
  let* x := r in Done (buffer (fst x)).

(** What command 6 of the menu prints about its [findText]. *)
Inductive FindReport : Type :=
| FoundTextAt (pos : Z)   (* "Found text at position " pos *)
| TextNotFound.           (* "Text not found." *)

Definition menu_find (search : list byte) (a : t) : Outcome FindReport :=
  let* pos := findText search a in
  Done (if pos =? wrap (-1) then TextNotFound else FoundTextAt pos).

(** A written character other than the terminator. *)
Definition character (c : cell) : Prop := ∃ b, c = Some b ∧ b ≠ NUL.

(** Cells that hold text: no gap and no terminator. *)
Definition plain (l : list cell) : Prop := Forall character l.

(** [needle] occurs in [hay] at [offset]. *)
Definition occurs_at (needle hay : list byte) (offset : nat) : Prop :=
  take (length needle) (drop offset hay) = needle.

(** A well-formed object whose text and clipboard hold text only. *)
Definition plain_state (a : t) : Prop :=
  wf a ∧ plain (content a) ∧ plain (clipboard a).

Definition plain_memento (m : Memento) : Prop :=
  ∃ a0, plain_state a0 ∧ m = snapshot a0.

Definition plain_history (a : t) : Prop :=
  Forall plain_memento (CareTaker.undoStack (careTaker a))
  ∧ Forall plain_memento (CareTaker.redoStack (careTaker a)).

(** A memento that was taken of a well-formed object. *)
Definition sound_memento (m : Memento) : Prop :=
  ∃ a0, wf a0 ∧ m = snapshot a0.

Definition sound_history (a : t) : Prop :=
  Forall sound_memento (CareTaker.undoStack (careTaker a))
  ∧ Forall sound_memento (CareTaker.redoStack (careTaker a)).

(** The objects a program gets to by calls that return: editing calls
    with proper arguments, [copyText] on [size_t] arguments whose sum
    does not wrap, [undo] and [redo]. *)
Inductive reachable : t -> Prop :=
| reachable_new : reachable new
| reachable_edit (e : Edit) (a a' : t) (out : list Message) :
    reachable a -> proper e a -> perform e a = Done (a', out) ->
    reachable a'
| reachable_copy (pos len : Z) (a a' : t) (out : list Message) :
    reachable a -> 0 <= pos -> 0 <= len -> pos + len < 2 ^ 64 ->
    copyText pos len a = Done (a', out) ->
    reachable a'
| reachable_undo (a a' : t) (out : list Message) :
    reachable a -> undo a = Done (a', out) -> reachable a'
| reachable_redo (a a' : t) (out : list Message) :
    reachable a -> redo a = Done (a', out) -> reachable a'.

(** The object after [append("hello")] on a new one. *)
Definition hello : t :=
  {| data := (Some <$> text_of "hello") ++ [Some NUL] ++ replicate 4 None;
     size := 5;
     capacity := 10;
     careTaker := {| CareTaker.undoStack := [snapshot new];
                     CareTaker.redoStack := [] |};
     clipboard := [] |}.

(** The object after [undo()] on [hello]: the text is empty again and
    "hello" is what [redo()] would bring back. *)
Definition hello_undone : t :=
  {| data := [Some NUL] ++ (Some <$> text_of "ello") ++ [Some NUL]
               ++ replicate 4 None;
     size := 0;
     capacity := 10;
     careTaker := {| CareTaker.undoStack := [];
                     CareTaker.redoStack := [snapshot hello] |};
     clipboard := [] |}.

(** * Properties *)

(** Side conditions that compare lengths of pieces of arrays. *)
Ltac lengths :=
  rewrite ?length_app, ?length_take, ?length_drop, ?length_fmap,
    ?length_replicate;
  cbn [length]; unfold strlen in *; lia.

(** ** Arithmetic on [size_t] *)

Lemma wrap_small (z : Z) : 0 <= z < 2 ^ 64 -> wrap z = z.
Proof. intros H. unfold wrap, SIZE_WIDTH. apply Z.mod_small. exact H. Qed.

Lemma wrap_range (z : Z) : 0 <= wrap z < 2 ^ 64.
Proof. unfold wrap, SIZE_WIDTH. apply Z.mod_pos_bound. lia. Qed.

Lemma size_add_small (a b : Z) : 0 <= a + b < 2 ^ 64 -> (a + b)%size = a + b.
Proof. apply wrap_small. Qed.

Lemma size_sub_small (a b : Z) : 0 <= a - b < 2 ^ 64 -> (a - b)%size = a - b.
Proof. apply wrap_small. Qed.

Lemma size_mul_small (a b : Z) : 0 <= a * b < 2 ^ 64 -> (a * b)%size = a * b.
Proof. apply wrap_small. Qed.

Lemma geb_true (x y : Z) : (x >=? y) = true <-> y <= x.
Proof. rewrite Z.geb_leb. apply Z.leb_le. Qed.

Lemma geb_false (x y : Z) : (x >=? y) = false <-> x < y.
Proof. rewrite Z.geb_leb. apply Z.leb_gt. Qed.

Lemma gtb_true (x y : Z) : (x >? y) = true <-> y < x.
Proof. rewrite Z.gtb_ltb. apply Z.ltb_lt. Qed.

Lemma gtb_false (x y : Z) : (x >? y) = false <-> x <= y.
Proof. rewrite Z.gtb_ltb. apply Z.ltb_ge. Qed.

(** ** Lists *)

Section Lists.

Context {A : Type}.

Lemma pop_back_nil : pop_back (@nil A) = None.
Proof. reflexivity. Qed.

Lemma pop_back_snoc (v : list A) (x : A) :
  pop_back (v ++ [x]) = Some (v, x).
Proof.
  unfold pop_back. rewrite reverse_app. cbn [reverse rev_append app].
  change (rev_append (reverse v) []) with (reverse (reverse v)).
  rewrite reverse_involutive. reflexivity.
Qed.

Lemma snoc_cases (l : list A) : l = [] ∨ ∃ rest x, l = rest ++ [x].
Proof.
  destruct l as [| x l] using rev_ind; [left; reflexivity |].
  right. exists l, x. reflexivity.
Qed.

Lemma take_two_parts (l1 l2 l3 : list A) (n : nat) :
  n = (length l1 + length l2)%nat -> take n (l1 ++ l2 ++ l3) = l1 ++ l2.
Proof.
  intros ->. rewrite app_assoc. apply take_app_length'.
  rewrite length_app. reflexivity.
Qed.

Lemma lookup_after_two_parts (l1 l2 l3 : list A) (x : A) (n : nat) :
  n = (length l1 + length l2)%nat ->
  (l1 ++ (l2 ++ [x]) ++ l3) !! n = Some x.
Proof.
  intros ->. rewrite <- (app_assoc l2), app_assoc. cbn [app].
  apply list_lookup_middle. rewrite length_app. reflexivity.
Qed.

End Lists.

Lemma take_take_app_fresh (n : nat) (m : nat) (l : list cell) :
  (n <= length l)%nat ->
  take n (take n l ++ replicate m None) = take n l.
Proof.
  intros Hn. rewrite take_app_le by (rewrite length_take; lia).
  rewrite take_take. f_equal. lia.
Qed.

Lemma Forall_written (l : list byte) : Forall is_Some (Some <$> l).
Proof. induction l; constructor; [eexists; reflexivity | assumption]. Qed.

(** ** Memory primitives *)

Lemma length_new_char (n : Z) : length (new_char n) = Z.to_nat n.
Proof. apply length_replicate. Qed.

Lemma load_inside (buf : list cell) (off n : Z) :
  0 <= off -> 0 <= n -> off + n <= Z.of_nat (length buf) ->
  load buf off n = Some (take (Z.to_nat n) (drop (Z.to_nat off) buf)).
Proof.
  intros Hoff Hn Hle. unfold load.
  destruct (decide _) as [_ | Hno]; [reflexivity | lia].
Qed.

Lemma store_inside (buf : list cell) (off : Z) (src : list cell) :
  0 <= off -> off + Z.of_nat (length src) <= Z.of_nat (length buf) ->
  store buf off src
  = Some (take (Z.to_nat off) buf ++ src
            ++ drop (Z.to_nat off + length src) buf).
Proof.
  intros Hoff Hle. unfold store.
  destruct (decide _) as [_ | Hno]; [reflexivity | lia].
Qed.

Lemma load_length (buf : list cell) (off n : Z) (l : list cell) :
  load buf off n = Some l -> Z.of_nat (length l) = n.
Proof.
  unfold load. destruct (decide _) as [(Hoff & Hn & Hle) | _]; [| discriminate].
  intros [= <-]. rewrite length_take, length_drop. lia.
Qed.

Lemma store_length (buf : list cell) (off : Z) (src l : list cell) :
  store buf off src = Some l -> length l = length buf.
Proof.
  unfold store. destruct (decide _) as [(Hoff & Hle) | _]; [| discriminate].
  intros [= <-]. rewrite !length_app, length_take, length_drop. lia.
Qed.

Lemma load_all (src : list cell) (n : Z) :
  n = Z.of_nat (length src) -> load src 0 n = Some src.
Proof.
  intros ->. rewrite load_inside by lia.
  change (Z.to_nat 0) with 0%nat. rewrite drop_0, take_ge by lia.
  reflexivity.
Qed.

(** Copying the first [n] cells of [src] into a fresh allocation. *)
Lemma memcpy_fresh (cap : Z) (src : list cell) (n : Z) :
  0 <= n <= cap -> n <= Z.of_nat (length src) ->
  memcpy (new_char cap) 0 src 0 n
  = Some (take (Z.to_nat n) src ++ replicate (Z.to_nat (cap - n)) None).
Proof.
  intros Hn Hsrc. unfold memcpy. rewrite load_inside by lia.
  change (Z.to_nat 0) with 0%nat. rewrite drop_0. cbn.
  assert (Hlen : length (take (Z.to_nat n) src) = Z.to_nat n)
    by (rewrite length_take; lia).
  rewrite store_inside by (rewrite ?length_new_char, ?Hlen; lia).
  change (Z.to_nat 0) with 0%nat. rewrite Hlen, take_0. cbn [Nat.add app].
  unfold new_char. rewrite drop_replicate. do 3 f_equal. lia.
Qed.

(** ** C strings *)

Lemma strlen_nonneg (text : list byte) : 0 <= strlen text.
Proof. unfold strlen. lia. Qed.

Lemma length_strcpy_image (text : list byte) :
  Z.of_nat (length (strcpy_image text)) = strlen text + 1.
Proof.
  unfold strcpy_image, strlen.
  rewrite length_app, length_fmap. cbn. lia.
Qed.

(** A clipboard whose characters were all written reads as a C string
    that is no longer than the clipboard and has no terminator inside. *)
Lemma c_str_initialised (s : list cell) :
  Forall is_Some s ->
  ∃ text, c_str s = Some text ∧ cstring text = text
    ∧ (length text <= length s)%nat.
Proof.
  induction 1 as [| c s [b ->] _ (text & Hread & Hfix & Hlen)].
  - exists []. split_and!; reflexivity.
  - cbn [c_str]. destruct (Byte.eqb b NUL) eqn:Hnul.
    + exists []. split_and!; [reflexivity | reflexivity | cbn; lia].
    + exists (b :: text). rewrite Hread. split_and!.
      * reflexivity.
      * cbn [cstring]. rewrite Hnul, Hfix. reflexivity.
      * cbn [length]. lia.
Qed.

(** ** Well-formed objects and what [saveState] records *)

Lemma wf_storable (a : t) : wf a -> storable a.
Proof. unfold wf, storable. lia. Qed.

Lemma wf_allocated (a : t) : wf a -> allocated a.
Proof. unfold wf, allocated. tauto. Qed.

Lemma allocated_storable (a : t) : allocated a -> storable a.
Proof. unfold allocated, storable. lia. Qed.

Lemma allocated_recorded (a : t) : allocated a -> allocated (recorded a).
Proof. unfold allocated. cbn. tauto. Qed.

Lemma wf_recorded (a : t) : wf a -> wf (recorded a).
Proof. unfold wf, content. cbn. tauto. Qed.

Lemma wf_set_careTaker (c : CareTaker.t) (a : t) :
  wf a -> wf (set_careTaker c a).
Proof. unfold wf, content. cbn. tauto. Qed.

Lemma snapshot_recorded (a : t) : snapshot (recorded a) = snapshot a.
Proof. reflexivity. Qed.

Lemma snapshot_set_clipboard (s : list cell) (a : t) :
  snapshot (set_clipboard s a) = snapshot a.
Proof. reflexivity. Qed.

Lemma sound_snapshot (a : t) : wf a -> sound_memento (snapshot a).
Proof. intros Hwf. exists a. split; [exact Hwf | reflexivity]. Qed.

Lemma storable_new : storable new.
Proof. unfold storable. cbn. lia. Qed.

Lemma wf_new : wf new.
Proof.
  unfold wf. cbn. split_and!; try lia; try reflexivity; constructor.
Qed.

Create HintDb buffer.
#[local] Hint Resolve wf_storable wf_allocated allocated_storable
  allocated_recorded wf_recorded wf_set_careTaker sound_snapshot : buffer.

Lemma Memento_new_storable (a : t) :
  storable a ->
  Memento_new (data a) (size a) (capacity a) = Some (snapshot a).
Proof.
  intros [Hsize Hdata]. unfold Memento_new.
  rewrite memcpy_fresh by lia. reflexivity.
Qed.

Lemma saveState_storable (a : t) :
  storable a -> saveState a = Some (recorded a).
Proof.
  intros Hok. unfold saveState, CareTaker.saveState.
  rewrite Memento_new_storable by exact Hok. reflexivity.
Qed.

(** The range test of the source agrees with [valid_range] as long as
    [pos + len] does not wrap. *)
Lemma invalid_range_false (pos len : Z) (a : t) :
  0 <= pos -> 0 <= len -> pos + len < 2 ^ 64 ->
  invalid_range pos len a = false <-> pos < size a ∧ pos + len <= size a.
Proof.
  intros Hpos Hlen Hsum. unfold invalid_range.
  rewrite orb_false_iff, geb_false, gtb_false.
  rewrite size_add_small by lia. reflexivity.
Qed.

Lemma valid_range_accepted (pos len : Z) (a : t) :
  size a < 2 ^ 64 -> valid_range pos len a -> invalid_range pos len a = false.
Proof.
  intros Hsize (Hpos & Hlen & Hsum).
  apply invalid_range_false; lia.
Qed.

(** ** Growing *)

Lemma resize_returns (n : Z) (a : t) :
  0 <= size a <= n -> size a <= Z.of_nat (length (data a)) ->
  resize n a
  = Some (set_capacity n
            (set_data (take (Z.to_nat (size a)) (data a)
                         ++ replicate (Z.to_nat (n - size a)) None) a)).
Proof.
  intros Hsize Hdata. unfold resize.
  rewrite memcpy_fresh by lia. reflexivity.
Qed.

Lemma resize_inv (n : Z) (a a1 : t) :
  resize n a = Some a1 ->
  capacity a1 = n ∧ size a1 = size a
  ∧ 0 <= size a <= Z.of_nat (Z.to_nat n).
Proof.
  unfold resize, memcpy.
  destruct (load (data a) 0 (size a)) as [l |] eqn:Hload; [| discriminate].
  cbn [mbind option_bind].
  destruct (store (new_char n) 0 l) as [d |] eqn:Hstore; [| discriminate].
  cbn [mbind option_bind]. intros [= <-].
  cbn [set_capacity set_data capacity size].
  apply load_length in Hload as Hlen.
  unfold load in Hload. destruct (decide _) as [(_ & Hsize & _) | _];
    [| discriminate].
  unfold store in Hstore. destruct (decide _) as [(_ & Hfit) | _];
    [| discriminate].
  rewrite length_new_char in Hfit. split_and!; try reflexivity; lia.
Qed.

(** The loop of [append] ends with a capacity above the new length, has
    kept the text, and has done nothing when the text already fitted. *)
Lemma append_grow_returns (fuel : nat) (len : Z) (a : t) :
  0 <= len -> 0 <= size a < capacity a ->
  size a + len < 2 ^ 63 ∨ size a + len < capacity a ->
  capacity a < 2 ^ 64 ->
  size a <= Z.of_nat (length (data a)) ->
  2 ^ 63 <= capacity a * 2 ^ Z.of_nat fuel ->
  ∃ a', append_grow fuel len a = Done a'
    ∧ size a' = size a
    ∧ careTaker a' = careTaker a
    ∧ clipboard a' = clipboard a
    ∧ capacity a <= capacity a' < 2 ^ 64
    ∧ size a + len < capacity a'
    ∧ take (Z.to_nat (size a)) (data a') = take (Z.to_nat (size a)) (data a)
    ∧ (Z.of_nat (length (data a)) = capacity a ->
       Z.of_nat (length (data a')) = capacity a')
    ∧ (size a + len < capacity a -> a' = a).
Proof.
  revert a. induction fuel as [| fuel IH]; intros a Hlen Hsize Hsum Hcap Hdata Hfuel.
  - cbn [append_grow]. rewrite size_add_small by lia.
    assert (Hfit : size a + len < capacity a)
      by (change (2 ^ Z.of_nat 0) with 1 in Hfuel; lia).
    apply geb_false in Hfit as Hgeb. rewrite Hgeb.
    exists a. repeat split; auto; lia.
  - cbn [append_grow]. rewrite size_add_small by lia.
    destruct (size a + len >=? capacity a) eqn:Hgeb.
    + apply geb_true in Hgeb.
      assert (Hhalf : size a + len < 2 ^ 63) by lia.
      rewrite size_mul_small by lia.
      rewrite resize_returns by lia. cbn [defined obind].
      set (a1 := set_capacity _ _).
      destruct (IH a1) as (a' & Hrun & Hs & Hct & Hclip & Hc & Hfit & Htake & Hlen' & _).
      * exact Hlen.
      * subst a1; cbn. lia.
      * left. exact Hhalf.
      * subst a1; cbn. lia.
      * subst a1; cbn. lengths.
      * subst a1; cbn. rewrite Nat2Z.inj_succ, Z.pow_succ_r in Hfuel by lia. lia.
      * exists a'. subst a1; cbn in *.
        split; [exact Hrun |]. split; [exact Hs |].
        split; [exact Hct |]. split; [exact Hclip |].
        split; [lia |]. split; [exact Hfit |].
        split; [| split].
        -- rewrite Htake. apply take_take_app_fresh. lia.
        -- intros _. apply Hlen'.
           lengths.
        -- intros Hcontra. lia.
    + apply geb_false in Hgeb.
      exists a. repeat split; auto; lia.
Qed.

(** ** The fuel of the loop in [append] *)

(** With fuel left, more fuel changes nothing. *)
Lemma append_grow_more_fuel (fuel extra : nat) (len : Z) (a : t) :
  append_grow fuel len a ≠ OutOfFuel ->
  append_grow (fuel + extra) len a = append_grow fuel len a.
Proof.
  revert a. induction fuel as [| fuel IH]; intros a Hleft.
  - cbn [append_grow] in Hleft.
    destruct extra; cbn [append_grow Nat.add];
      destruct (_ >=? _); congruence.
  - cbn [append_grow Nat.add] in *.
    destruct (_ >=? _); [| reflexivity].
    destruct (resize _ a) as [a1 |]; [| reflexivity].
    cbn [defined obind] in *. apply IH. exact Hleft.
Qed.

(** An empty text in an array of no cells: the loop of the source does
    not leave this state. *)
Lemma append_grow_stuck (n : nat) (len : Z) (a : t) :
  size a = 0 -> capacity a = 0 -> append_grow n len a = OutOfFuel.
Proof.
  revert a. induction n as [| n IH]; intros a Hsize Hcap;
    cbn [append_grow]; rewrite Hcap;
    replace (_ >=? 0) with true
      by (symmetry; apply geb_true; apply wrap_range).
  - reflexivity.
  - change (0 * 2)%size with 0.
    unfold resize, memcpy. rewrite Hsize, load_inside by lia.
    cbn [mbind option_bind]. rewrite take_0.
    rewrite store_inside by (cbn; lia).
    cbn [mbind option_bind defined obind].
    apply IH; cbn [set_capacity set_data size capacity]; congruence.
Qed.

Lemma append_grow_exhausted (fuel k : nat) (c0 len : Z) (a : t) :
  (k + fuel = 64)%nat ->
  capacity a = wrap (c0 * 2 ^ Z.of_nat k) ->
  0 <= size a <= capacity a ->
  append_grow fuel len a = OutOfFuel ->
  ∀ n, append_grow (fuel + n) len a = OutOfFuel.
Proof.
  revert k a. induction fuel as [| fuel IH]; intros k a Hk Hcap Hsize Hout n.
  - rewrite Nat.add_0_r in Hk. subst k.
    assert (Hzero : capacity a = 0).
    { rewrite Hcap. unfold wrap, SIZE_WIDTH.
      change (Z.of_nat 64) with 64. apply Z_mod_mult. }
    apply append_grow_stuck; lia.
  - cbn [append_grow Nat.add] in *.
    destruct (_ >=? _); [| discriminate].
    destruct (resize _ a) as [a1 |] eqn:Hresize; [| discriminate].
    cbn [defined obind] in *.
    apply resize_inv in Hresize as (Hcap1 & Hsize1 & Hfit).
    apply (IH (S k)); try assumption.
    + lia.
    + rewrite Hcap1, Hcap. unfold size_mul, wrap, SIZE_WIDTH.
      rewrite Z.mul_mod_idemp_l by lia.
      rewrite Nat2Z.inj_succ, Z.pow_succ_r by lia.
      f_equal. lia.
    + rewrite Hsize1, Hcap1.
      pose proof (wrap_range (capacity a * 2)) as Hrange.
      unfold size_mul in *. lia.
Qed.

(** The fuel of [append] is enough: whatever the loop does with
    [append_fuel] doublings it does with any larger number, so
    [OutOfFuel] stands for a loop that does not end. *)
Lemma append_fuel_enough (n : nat) (len : Z) (a : t) :
  0 <= size a <= capacity a -> capacity a < 2 ^ 64 ->
  append_grow (append_fuel + n) len a = append_grow append_fuel len a.
Proof.
  intros Hsize Hcap.
  destruct (append_grow append_fuel len a) eqn:Hrun.
  - rewrite append_grow_more_fuel; congruence.
  - rewrite append_grow_more_fuel; congruence.
  - apply (append_grow_exhausted append_fuel 0 (capacity a)); try assumption.
    + reflexivity.
    + change (2 ^ Z.of_nat 0) with 1. rewrite Z.mul_1_r.
      symmetry. apply wrap_small. lia.
Qed.

(** ** [append] *)

Lemma append_returns (text : list byte) (a : t) :
  wf a ->
  size a + strlen text < 2 ^ 63 ∨ size a + strlen text < capacity a ->
  ∃ a', append text a = Done (a', [])
    ∧ careTaker a' = careTaker (recorded a)
    ∧ clipboard a' = clipboard a
    ∧ size a' = size a + strlen text
    ∧ capacity a <= capacity a' < 2 ^ 64
    ∧ size a' < capacity a'
    ∧ Z.of_nat (length (data a')) = capacity a'
    ∧ content a' = content a ++ (Some <$> cstring text)
    ∧ terminated a'
    ∧ (size a + strlen text < capacity a ->
       capacity a' = capacity a
       ∧ data a' = content a ++ strcpy_image text
                     ++ drop (Z.to_nat (size a)
                              + length (strcpy_image text)) (data a)).
Proof.
  intros Hwf Hsum. pose proof (wf_storable a Hwf) as Hok.
  destruct Hwf as (Hsize & Hcap & Halloc & _ & _).
  pose proof (strlen_nonneg text) as Hlen.
  pose proof (length_strcpy_image text) as Himg.
  unfold append. rewrite saveState_storable by exact Hok.
  cbn [defined obind].
  destruct (append_grow_returns append_fuel (strlen text) (recorded a))
    as (a2 & Hrun & Hs & Hct & Hclip & Hc & Hfit & Htake & Hlen2 & Hsame);
    cbn [recorded set_careTaker size capacity data]; try lia.
  { change (2 ^ Z.of_nat append_fuel) with (2 ^ 64). lia. }
  cbn [recorded set_careTaker size capacity data careTaker clipboard] in *.
  rewrite Hrun. cbn [obind]. rewrite Hs.
  specialize (Hlen2 Halloc).
  rewrite store_inside by lia. cbn [defined obind quiet].
  rewrite size_add_small by lia.
  eexists. split; [reflexivity |].
  cbn [set_size set_data size capacity data careTaker clipboard].
  assert (Hpre : length (take (Z.to_nat (size a)) (data a2)) = Z.to_nat (size a))
    by (rewrite length_take; lia).
  assert (Htxt : length (Some <$> cstring text) = Z.to_nat (strlen text))
    by (rewrite length_fmap; unfold strlen; lia).
  split_and!.
  - exact Hct.
  - exact Hclip.
  - reflexivity.
  - lia.
  - lia.
  - lia.
  - rewrite !length_app, length_drop, Hpre. lia.
  - unfold content. cbn [size data set_size set_data]. unfold strcpy_image.
    rewrite <- (app_assoc (Some <$> cstring text)).
    rewrite take_two_parts
      by (rewrite length_take, length_fmap; unfold strlen in *; lia).
    rewrite Htake. reflexivity.
  - unfold terminated, terminator. cbn [size data set_size set_data].
    unfold strcpy_image. apply lookup_after_two_parts.
    rewrite length_take, length_fmap; unfold strlen in *; lia.
  - intros Hfits. rewrite (Hsame Hfits). split; reflexivity.
Qed.

(** ** [insertAndReplace] *)

(** The two copies of [insertAndReplace] on lists: [moved] is what
    [memmove] reads, [d2] the array after it, [d3] the array after
    [memcpy] has written [sub] at [p]. *)
Lemma splice_lists (d sub : list cell) (p i j n s : nat) :
  (p <= j)%nat -> (j <= s)%nat -> n = (s - j + 1)%nat ->
  i = (p + length sub)%nat ->
  (s < length d)%nat -> (i + n <= length d)%nat ->
  let moved := take n (drop j d) in
  let d2 := take i d ++ moved ++ drop (i + length moved) d in
  let d3 := take p d2 ++ sub ++ drop (p + length sub) d2 in
  length d3 = length d
  ∧ take (i + n - 1) d3 = take p (take s d) ++ sub ++ drop j (take s d)
  ∧ d3 !! (i + n - 1)%nat = d !! s.
Proof.
  intros Hpj Hjs Hn Hi Hs Hin moved d2 d3.
  assert (Hmoved : length moved = n)
    by (subst moved; rewrite length_take, length_drop; lia).
  assert (Hd2 : d2 = take i d ++ moved ++ drop (i + n) d)
    by (subst d2; rewrite Hmoved; reflexivity).
  assert (Hd3 : d3 = take p d ++ sub ++ moved ++ drop (i + n) d).
  { subst d3. rewrite <- Hi. rewrite Hd2.
    rewrite take_app_le by (rewrite length_take; lia).
    rewrite take_take, Nat.min_l by lia.
    rewrite drop_app_length' by (rewrite length_take; lia).
    reflexivity. }
  rewrite Hd3. split_and!.
  - rewrite !length_app, length_take, length_drop, Hmoved. lia.
  - rewrite (app_assoc (take p d)).
    replace (i + n - 1)%nat with (i + (n - 1))%nat by lia.
    rewrite take_app_add' by lengths.
    rewrite <- app_assoc. f_equal.
    + rewrite take_take, Nat.min_l by lia. reflexivity.
    + f_equal. rewrite take_app_le by lia.
      subst moved. rewrite take_take, Nat.min_l by lia.
      rewrite take_drop_commute. f_equal. f_equal. lia.
  - rewrite (app_assoc (take p d)).
    rewrite lookup_app_r by lengths.
    rewrite length_app, length_take.
    rewrite lookup_app_l by lia.
    subst moved. rewrite lookup_take_lt by lia.
    rewrite lookup_drop. f_equal. lia.
Qed.

(** The array [insertAndReplace] works on once it has decided whether to
    grow: the old one, or a fresh one that holds the text and nothing
    else -- [resize] copies [size] characters, not the terminator. *)
Lemma insertAndReplace_room (newLen : Z) (a : t) :
  0 <= size a < capacity a -> capacity a < 2 ^ 64 ->
  Z.of_nat (length (data a)) = capacity a ->
  size a <= newLen \/ newLen < capacity a -> 0 <= newLen < 2 ^ 63 ->
  ∃ d1 c1,
    (if newLen >=? capacity a then resize (newLen * 2)%size a else Some a)
    = Some (set_capacity c1 (set_data d1 a))
    ∧ Z.of_nat (length d1) = c1
    ∧ capacity a <= c1 < 2 ^ 64
    ∧ newLen < c1
    ∧ take (Z.to_nat (size a)) d1 = take (Z.to_nat (size a)) (data a)
    ∧ d1 !! Z.to_nat (size a)
      = (if decide (capacity a <= newLen) then Some None else terminator a)
    ∧ (newLen < capacity a -> c1 = capacity a ∧ d1 = data a).
Proof.
  intros Hsize Hcap Halloc Hnew Hhalf.
  destruct (newLen >=? capacity a) eqn:Hgeb.
  - apply geb_true in Hgeb.
    rewrite size_mul_small by lia. rewrite resize_returns by lia.
    eexists _, _. split; [reflexivity |]. split_and!.
    + lengths.
    + lia.
    + lia.
    + lia.
    + apply take_take_app_fresh. lia.
    + rewrite decide_True by exact Hgeb.
      rewrite lookup_app_r by (rewrite length_take; lia).
      rewrite length_take. apply lookup_replicate_2. lia.
    + intros Hcontra. lia.
  - apply geb_false in Hgeb.
    exists (data a), (capacity a). split; [destruct a; reflexivity |].
    split_and!; try lia; try reflexivity.
    + rewrite decide_False by lia. reflexivity.
    + intros _. split; reflexivity.
Qed.

Lemma insertAndReplace_returns (pos : Z) (substring : list byte)
    (replaceLen : Z) (a : t) :
  wf a -> 0 <= pos -> 0 <= replaceLen -> pos + replaceLen <= size a ->
  size a + strlen substring < 2 ^ 63 ->
  ∃ a', insertAndReplace pos substring replaceLen a = Done (a', [])
    ∧ careTaker a' = careTaker (recorded a)
    ∧ clipboard a' = clipboard a
    ∧ size a' = size a + strlen substring - replaceLen
    ∧ capacity a <= capacity a' < 2 ^ 64
    ∧ size a' < capacity a'
    ∧ Z.of_nat (length (data a')) = capacity a'
    ∧ content a'
      = take (Z.to_nat pos) (content a) ++ (Some <$> cstring substring)
          ++ drop (Z.to_nat (pos + replaceLen)) (content a)
    ∧ terminator a'
      = (if decide (capacity a <= size a') then Some None else terminator a)
    ∧ (size a' < capacity a -> capacity a' = capacity a).
Proof.
  intros Hwf Hpos Hrl Hspan Hsum. pose proof (wf_storable a Hwf) as Hok.
  destruct Hwf as (Hsize & Hcap & Halloc & _ & _).
  pose proof (strlen_nonneg substring) as Hlen.
  set (newLen := size a + strlen substring - replaceLen).
  unfold insertAndReplace. rewrite saveState_storable by exact Hok.
  cbn [defined obind]. cbv zeta.
  cbn [recorded set_careTaker size capacity data].
  rewrite (size_add_small (size a)) by lia.
  rewrite (size_sub_small (size a + strlen substring)) by lia.
  fold newLen.
  destruct (insertAndReplace_room newLen (recorded a))
    as (d1 & c1 & Hroom & Hlen1 & Hc1 & Hfit & Htake & Hterm & Hsame);
    cbn [recorded set_careTaker size capacity data]; try lia.
  cbn [recorded set_careTaker size capacity data] in Hroom, Htake, Hsame, Hc1.
  unfold terminator in Hterm.
  cbn [recorded set_careTaker size capacity data] in Hterm.
  rewrite Hroom. cbn [defined obind set_capacity set_data size data].
  change (size (recorded a)) with (size a).
  rewrite (size_add_small (size a)) by lia.
  rewrite (size_sub_small (size a + strlen substring)) by lia.
  fold newLen.
  rewrite (size_sub_small (size a) pos) by lia.
  rewrite (size_sub_small (size a - pos)) by lia.
  rewrite size_add_small by lia.
  assert (Hsub : length (Some <$> cstring substring)
                 = Z.to_nat (strlen substring))
    by (rewrite length_fmap; unfold strlen; lia).
  unfold memmove. rewrite load_inside by lia. cbn [mbind option_bind].
  rewrite store_inside
    by lengths.
  cbn [defined obind]. unfold memcpy.
  rewrite load_all by (rewrite length_fmap; unfold strlen; lia).
  cbn [mbind option_bind].
  pose proof (splice_lists d1 (Some <$> cstring substring)
                (Z.to_nat pos) (Z.to_nat (pos + strlen substring))
                (Z.to_nat (pos + replaceLen))
                (Z.to_nat (size a - pos - replaceLen + 1))
                (Z.to_nat (size a))) as Hsplice.
  cbv zeta in Hsplice.
  destruct Hsplice as (Hlen3 & Hcontent & Hlook);
    try lengths.
  rewrite store_inside
    by lengths.
  cbn [defined obind quiet]. eexists. split; [reflexivity |].
  assert (Hidx : (Z.to_nat (pos + strlen substring)
                  + Z.to_nat (size a - pos - replaceLen + 1) - 1)%nat
                 = Z.to_nat newLen) by (subst newLen; lia).
  rewrite Hidx in Hcontent, Hlook.
  cbn [set_size set_data set_capacity size capacity data careTaker clipboard].
  split_and!.
  - reflexivity.
  - reflexivity.
  - reflexivity.
  - lia.
  - lia.
  - lia.
  - rewrite Hlen3. exact Hlen1.
  - unfold content.
    cbn [set_size set_data set_capacity size capacity data].
    rewrite Hcontent, Htake. reflexivity.
  - unfold terminator.
    cbn [set_size set_data set_capacity size capacity data].
    rewrite Hlook. exact Hterm.
  - intros Hfits. apply Hsame. exact Hfits.
Qed.

(** [insertAndReplace] that has to grow leaves an indeterminate
    character behind the text. *)
Lemma insertAndReplace_grown_unterminated (pos : Z) (substring : list byte)
    (replaceLen : Z) (a : t) :
  wf a -> 0 <= pos -> 0 <= replaceLen -> pos + replaceLen <= size a ->
  size a + strlen substring < 2 ^ 63 ->
  capacity a <= size a + strlen substring - replaceLen ->
  ∃ a', insertAndReplace pos substring replaceLen a = Done (a', [])
    ∧ size a' < capacity a'
    ∧ terminator a' = Some None.
Proof.
  intros Hwf Hpos Hrl Hspan Hsum Hgrow.
  destruct (insertAndReplace_returns pos substring replaceLen a
              Hwf Hpos Hrl Hspan Hsum)
    as (a' & Hrun & _ & _ & Hsize & _ & Hfit & _ & _ & Hterm & _).
  exists a'. split; [exact Hrun |]. split; [exact Hfit |].
  rewrite Hterm, decide_True by lia. reflexivity.
Qed.

(** ** [deleteText], [copyText], [cutText] *)

(** The array after a deletion: the text before the span, the text
    behind it moved down, the terminator, and whatever the old array
    held further up. *)
Lemma deleteText_returns (pos len : Z) (a : t) :
  allocated a -> valid_range pos len a ->
  deleteText pos len a
  = Done (set_data
            (take (Z.to_nat pos) (data a)
               ++ take (Z.to_nat (size a - pos - len))
                    (drop (Z.to_nat (pos + len)) (data a))
               ++ Some NUL :: drop (Z.to_nat (size a - len + 1)) (data a))
            (set_size (size a - len) (recorded a)), []).
Proof.
  intros Halloc Hrange.
  pose proof (allocated_storable a Halloc) as Hok.
  destruct Halloc as (Hsize & Hcap & Halloc).
  pose proof (valid_range_accepted pos len a ltac:(lia) Hrange) as Hacc.
  destruct Hrange as (Hpos & Hlen & Hsum).
  unfold deleteText. rewrite saveState_storable by exact Hok.
  cbn [defined obind].
  change (invalid_range pos len (recorded a)) with (invalid_range pos len a).
  rewrite Hacc. cbn [recorded set_careTaker size capacity data].
  rewrite (size_sub_small (size a) pos) by lia.
  rewrite (size_sub_small (size a - pos)) by lia.
  rewrite (size_sub_small (size a) len) by lia.
  unfold memmove. rewrite load_inside by lia. cbn [mbind option_bind].
  set (moved := take _ (drop _ (data a))).
  assert (Hmoved : length moved = Z.to_nat (size a - pos - len))
    by (subst moved; rewrite length_take, length_drop; lia).
  rewrite store_inside by lia.
  cbn [defined obind set_size set_data size data]. cbv zeta.
  cbn [set_size set_data size data].
  rewrite store_inside
    by lengths.
  cbn [defined obind]. unfold quiet, set_data, set_size.
  cbn [data size capacity careTaker clipboard recorded set_careTaker].
  do 3 f_equal.
  assert (Hfront : length (take (Z.to_nat pos) (data a) ++ moved)
                   = Z.to_nat (size a - len))
    by lengths.
  rewrite !(app_assoc (take (Z.to_nat pos) (data a)) moved).
  rewrite take_app_length' by (symmetry; exact Hfront).
  f_equal. cbn [app length]. f_equal.
  rewrite drop_app_ge by lia.
  rewrite drop_drop. f_equal. lia.
Qed.

Lemma copyText_returns (pos len : Z) (a : t) :
  allocated a -> valid_range pos len a ->
  copyText pos len a
  = Done (set_clipboard
            (take (Z.to_nat len) (drop (Z.to_nat pos) (data a))) a, []).
Proof.
  intros (Hsize & Hcap & Halloc) Hrange.
  pose proof (valid_range_accepted pos len a ltac:(lia) Hrange) as Hacc.
  destruct Hrange as (Hpos & Hlen & Hsum).
  unfold copyText. rewrite Hacc.
  rewrite load_inside by lia. reflexivity.
Qed.

Lemma cutText_returns (pos len : Z) (a : t) :
  allocated a -> valid_range pos len a ->
  cutText pos len a
  = Done (set_data
            (take (Z.to_nat pos) (data a)
               ++ take (Z.to_nat (size a - pos - len))
                    (drop (Z.to_nat (pos + len)) (data a))
               ++ Some NUL :: drop (Z.to_nat (size a - len + 1)) (data a))
            (set_size (size a - len)
               (recorded
                  (set_clipboard
                     (take (Z.to_nat len) (drop (Z.to_nat pos) (data a)))
                     (recorded a)))), []).
Proof.
  intros Halloc Hrange.
  pose proof (allocated_storable a Halloc) as Hok.
  pose proof (valid_range_accepted pos len a
                ltac:(destruct Halloc; lia) Hrange) as Hacc.
  unfold cutText. rewrite saveState_storable by exact Hok.
  cbn [defined obind].
  change (invalid_range pos len (recorded a)) with (invalid_range pos len a).
  rewrite Hacc. unfold andThen.
  rewrite copyText_returns
    by auto with buffer.
  cbn [obind fst snd].
  rewrite deleteText_returns by assumption.
  reflexivity.
Qed.

(** The text [deleteText] leaves, read off the array it leaves. *)
Lemma erased_content (d rest : list cell) (x : cell) (p j n s k : nat) :
  (j + n = s)%nat -> (p <= j)%nat -> (s <= length d)%nat ->
  k = (p + n)%nat ->
  take k (take p d ++ take n (drop j d) ++ x :: rest)
  = take p (take s d) ++ drop j (take s d).
Proof.
  intros Hs Hp Hd ->.
  rewrite take_two_parts
    by (rewrite !length_take, length_drop; lia).
  rewrite take_take, Nat.min_l by lia.
  rewrite take_drop_commute, Hs. reflexivity.
Qed.

Lemma erased_wf (pos len : Z) (a : t) (c : CareTaker.t) (clip : list cell) :
  wf a -> valid_range pos len a -> Forall is_Some clip ->
  wf {| data :=
          take (Z.to_nat pos) (data a)
            ++ take (Z.to_nat (size a - pos - len))
                 (drop (Z.to_nat (pos + len)) (data a))
            ++ Some NUL :: drop (Z.to_nat (size a - len + 1)) (data a);
        size := size a - len;
        capacity := capacity a;
        careTaker := c;
        clipboard := clip |}.
Proof.
  intros (Hsize & Hcap & Halloc & Hcontent & _) (Hpos & Hlen & Hsum) Hclip.
  unfold wf, content in *. cbn [data size capacity clipboard].
  split_and!; try lia; try assumption.
  - rewrite !length_app, length_take. cbn [length].
    rewrite length_take, !length_drop. lia.
  - rewrite (erased_content _ _ _ _ _ _ (Z.to_nat (size a))) by lia.
    apply Forall_app. split.
    + apply Forall_take. exact Hcontent.
    + apply Forall_drop. exact Hcontent.
Qed.

(** What [copyText] puts on the clipboard is part of the text. *)
Lemma copied_written (pos len : Z) (a : t) :
  wf a -> valid_range pos len a ->
  Forall is_Some (take (Z.to_nat len) (drop (Z.to_nat pos) (data a))).
Proof.
  intros (Hsize & Hcap & Halloc & Hcontent & _) (Hpos & Hlen & Hsum).
  unfold content in Hcontent. rewrite take_drop_commute.
  apply Forall_drop.
  replace (take (Z.to_nat pos + Z.to_nat len) (data a))
    with (take (Z.to_nat pos + Z.to_nat len)
            (take (Z.to_nat (size a)) (data a)))
    by (rewrite take_take; f_equal; lia).
  apply Forall_take. exact Hcontent.
Qed.

(** ** [pasteText] *)

Lemma pasteText_returns (pos : Z) (a : t) :
  wf a -> 0 <= pos <= size a ->
  size a + Z.of_nat (length (clipboard a)) < 2 ^ 63 ->
  ∃ a' text, pasteText pos a = Done (a', [])
    ∧ c_str (clipboard a) = Some text
    ∧ CareTaker.undoStack (careTaker a')
      = CareTaker.undoStack (careTaker a) ++ [snapshot a; snapshot a]
    ∧ CareTaker.redoStack (careTaker a') = []
    ∧ clipboard a' = clipboard a
    ∧ size a' = size a + strlen text
    ∧ capacity a <= capacity a' < 2 ^ 64
    ∧ size a' < capacity a'
    ∧ Z.of_nat (length (data a')) = capacity a'
    ∧ content a'
      = take (Z.to_nat pos) (content a) ++ (Some <$> text)
          ++ drop (Z.to_nat pos) (content a)
    ∧ (size a' < capacity a -> capacity a' = capacity a).
Proof.
  intros Hwf Hpos Hsum. pose proof (wf_storable a Hwf) as Hok.
  pose proof (wf_recorded a Hwf) as Hwf'.
  destruct (c_str_initialised (clipboard a)) as (text & Hread & Hfix & Hlen).
  { destruct Hwf as (_ & _ & _ & _ & Hclip). exact Hclip. }
  assert (Hstrlen : strlen text = Z.of_nat (length text))
    by (unfold strlen; rewrite Hfix; reflexivity).
  destruct (insertAndReplace_returns pos text 0 (recorded a))
    as (a' & Hrun & Hct & Hclip & Hsize' & Hcap' & Hfit & Halloc'
        & Hcontent & _ & Hsame);
    cbn [recorded set_careTaker size]; try lia; try exact Hwf'.
  exists a', text. unfold pasteText.
  rewrite saveState_storable by exact Hok. cbn [defined obind].
  change (size (recorded a)) with (size a).
  replace (pos >? size a) with false by (symmetry; apply gtb_false; lia).
  change (clipboard (recorded a)) with (clipboard a).
  rewrite Hread. cbn [defined obind].
  change (size (recorded a)) with (size a) in *.
  change (capacity (recorded a)) with (capacity a) in *.
  change (content (recorded a)) with (content a) in *.
  split_and!; try assumption; try reflexivity; try lia.
  - rewrite Hct. cbn. rewrite <- app_assoc. reflexivity.
  - rewrite Hct. reflexivity.
  - rewrite Hcontent, Hfix, Z.add_0_r. reflexivity.
Qed.

(** ** Rejected arguments *)

Lemma deleteText_rejects (pos len : Z) (a : t) :
  storable a -> invalid_range pos len a = true ->
  deleteText pos len a = Done (recorded a, [InvalidPositionOrLength]).
Proof.
  intros Hok Hrange. unfold deleteText.
  rewrite saveState_storable by exact Hok. cbn [defined obind].
  change (invalid_range pos len (recorded a)) with (invalid_range pos len a).
  rewrite Hrange. reflexivity.
Qed.

Lemma cutText_rejects (pos len : Z) (a : t) :
  storable a -> invalid_range pos len a = true ->
  cutText pos len a = Done (recorded a, [InvalidPositionOrLength]).
Proof.
  intros Hok Hrange. unfold cutText.
  rewrite saveState_storable by exact Hok. cbn [defined obind].
  change (invalid_range pos len (recorded a)) with (invalid_range pos len a).
  rewrite Hrange. reflexivity.
Qed.

Lemma copyText_rejects (pos len : Z) (a : t) :
  invalid_range pos len a = true ->
  copyText pos len a = Done (a, [InvalidPositionOrLength]).
Proof. intros Hrange. unfold copyText. rewrite Hrange. reflexivity. Qed.

Lemma pasteText_rejects (pos : Z) (a : t) :
  storable a -> size a < pos ->
  pasteText pos a = Done (recorded a, [InvalidPosition]).
Proof.
  intros Hok Hpos. unfold pasteText.
  rewrite saveState_storable by exact Hok. cbn [defined obind].
  change (size (recorded a)) with (size a).
  apply gtb_true in Hpos. rewrite Hpos. reflexivity.
Qed.

(** ** One editing call *)

(** Every editing call with proper arguments returns, and returns a
    well-formed object with nothing to redo and with one or two more
    mementos to undo, each of the state the call started from. *)
Lemma perform_wf (e : Edit) (a : t) :
  wf a -> proper e a ->
  ∃ a' out, perform e a = Done (a', out)
    ∧ wf a'
    ∧ (CareTaker.undoStack (careTaker a')
       = CareTaker.undoStack (careTaker a) ++ [snapshot a]
       ∨ CareTaker.undoStack (careTaker a')
         = CareTaker.undoStack (careTaker a) ++ [snapshot a; snapshot a])
    ∧ CareTaker.redoStack (careTaker a') = [].
Proof.
  intros Hwf Hproper. pose proof (wf_allocated a Hwf) as Halloc.
  pose proof (allocated_storable a Halloc) as Hok.
  destruct e as [text | pos sub rl | pos len | pos len | pos];
    cbn [perform proper] in *.
  - destruct (append_returns text a Hwf) as
      (a' & Hrun & Hct & Hclip & Hsize & Hcap & Hfit & Hlen & Hcontent & _);
      [left; lia |].
    exists a', [].
    split_and!; [exact Hrun | | left; rewrite Hct; reflexivity
                | rewrite Hct; reflexivity].
    pose proof (strlen_nonneg text).
    destruct Hwf as (Hsize0 & _ & _ & Hcontent0 & Hclip0).
    unfold wf. rewrite Hcontent, Hclip.
    split_and!; try lia; try assumption.
    apply Forall_app. split; [assumption | apply Forall_written].
  - destruct Hproper as (Hpos & Hrl & Hspan & Hsum).
    destruct (insertAndReplace_returns pos sub rl a Hwf Hpos Hrl Hspan Hsum)
      as (a' & Hrun & Hct & Hclip & Hsize & Hcap & Hfit & Hlen & Hcontent & _).
    exists a', [].
    split_and!; [exact Hrun | | left; rewrite Hct; reflexivity
                | rewrite Hct; reflexivity].
    pose proof (strlen_nonneg sub).
    destruct Hwf as (Hsize0 & _ & _ & Hcontent0 & Hclip0).
    unfold wf. rewrite Hcontent, Hclip.
    split_and!; try lia; try assumption.
    apply Forall_app. split; [apply Forall_take; assumption |].
    apply Forall_app. split; [apply Forall_written |].
    apply Forall_drop; assumption.
  - destruct Hproper as (Hpos & Hlen & Hsum).
    destruct (invalid_range pos len a) eqn:Hrange.
    + exists (recorded a), [InvalidPositionOrLength].
      split_and!; [| apply wf_recorded; exact Hwf | left; reflexivity
                  | reflexivity].
      apply deleteText_rejects; assumption.
    + apply invalid_range_false in Hrange; [| lia ..].
      assert (Hvalid : valid_range pos len a) by (unfold valid_range; lia).
      eexists _, _. split; [apply deleteText_returns; assumption |].
      split_and!; [| left; reflexivity | reflexivity].
      apply (erased_wf pos len a); try assumption.
      destruct Hwf as (_ & _ & _ & _ & Hclip). exact Hclip.
  - destruct Hproper as (Hpos & Hlen & Hsum).
    destruct (invalid_range pos len a) eqn:Hrange.
    + exists (recorded a), [InvalidPositionOrLength].
      split_and!; [| apply wf_recorded; exact Hwf | left; reflexivity
                  | reflexivity].
      apply cutText_rejects; assumption.
    + apply invalid_range_false in Hrange; [| lia ..].
      assert (Hvalid : valid_range pos len a) by (unfold valid_range; lia).
      eexists _, _. split; [apply cutText_returns; assumption |].
      split_and!; [| right; cbn; rewrite <- app_assoc; reflexivity
                  | reflexivity].
      apply (erased_wf pos len a); try assumption.
      apply copied_written; assumption.
  - destruct Hproper as (Hpos & Hsum).
    destruct (pos >? size a) eqn:Hgt.
    + exists (recorded a), [InvalidPosition].
      split_and!; [| apply wf_recorded; exact Hwf | left; reflexivity
                  | reflexivity].
      apply pasteText_rejects; [assumption | apply gtb_true; exact Hgt].
    + apply gtb_false in Hgt.
      destruct (pasteText_returns pos a Hwf) as
        (a' & text & Hrun & _ & Hundo & Hredo & Hclip & Hsize & Hcap & Hfit
         & Hlen & Hcontent & _);
        [lia | lia |].
      exists a', [].
      split_and!; [exact Hrun | | right; exact Hundo | exact Hredo].
      pose proof (strlen_nonneg text).
      destruct Hwf as (Hsize0 & _ & _ & Hcontent0 & Hclip0).
      unfold wf. rewrite Hcontent, Hclip.
      split_and!; try lia; try assumption.
      apply Forall_app. split; [apply Forall_take; assumption |].
      apply Forall_app. split; [apply Forall_written |].
      apply Forall_drop; assumption.
Qed.

(** In particular the memento on top of the undo stack is the one of
    the state the call started from. *)
Lemma perform_returns (e : Edit) (a : t) :
  wf a -> proper e a ->
  ∃ a' out rest, perform e a = Done (a', out)
    ∧ CareTaker.undoStack (careTaker a') = rest ++ [snapshot a]
    ∧ CareTaker.redoStack (careTaker a') = []
    ∧ allocated a'.
Proof.
  intros Hwf Hproper.
  destruct (perform_wf e a Hwf Hproper)
    as (a' & out & Hrun & Hwf' & [Hundo | Hundo] & Hredo).
  - exists a', out, (CareTaker.undoStack (careTaker a)).
    split_and!; try assumption. apply wf_allocated. exact Hwf'.
  - exists a', out, (CareTaker.undoStack (careTaker a) ++ [snapshot a]).
    split_and!; try assumption.
    + rewrite Hundo, <- app_assoc. reflexivity.
    + apply wf_allocated. exact Hwf'.
Qed.

(** ** [undo] and [redo] *)

Lemma undo_nothing (a : t) :
  storable a -> CareTaker.undoStack (careTaker a) = [] ->
  undo a
  = Done (set_careTaker
            {| CareTaker.undoStack := [];
               CareTaker.redoStack :=
                 CareTaker.redoStack (careTaker a) ++ [snapshot a] |} a,
          [CannotUndoFurther]).
Proof.
  intros Hok Hempty. unfold undo, CareTaker.pushToRedo.
  rewrite Memento_new_storable by exact Hok. cbn.
  unfold CareTaker.undo. cbn. rewrite Hempty. reflexivity.
Qed.

Lemma redo_nothing (a : t) :
  storable a -> CareTaker.redoStack (careTaker a) = [] ->
  redo a
  = Done (set_careTaker
            {| CareTaker.undoStack :=
                 CareTaker.undoStack (careTaker a) ++ [snapshot a];
               CareTaker.redoStack := [] |} a,
          [CannotRedoFurther]).
Proof.
  intros Hok Hempty. unfold redo, CareTaker.pushToUndo.
  rewrite Memento_new_storable by exact Hok. cbn.
  unfold CareTaker.redo. cbn. rewrite Hempty. reflexivity.
Qed.

Lemma undo_pops (a : t) (rest : list Memento) (m : Memento) :
  storable a -> CareTaker.undoStack (careTaker a) = rest ++ [m] ->
  undo a
  = restore m
      (set_careTaker
         {| CareTaker.undoStack := rest;
            CareTaker.redoStack :=
              CareTaker.redoStack (careTaker a) ++ [snapshot a] |} a).
Proof.
  intros Hok Hstack. unfold undo, CareTaker.pushToRedo.
  rewrite Memento_new_storable by exact Hok.
  cbn [mbind option_bind defined obind]. unfold CareTaker.undo.
  cbn [CareTaker.undoStack CareTaker.redoStack].
  rewrite Hstack, pop_back_snoc. reflexivity.
Qed.

Lemma redo_pops (a : t) (rest : list Memento) (m : Memento) :
  storable a -> CareTaker.redoStack (careTaker a) = rest ++ [m] ->
  redo a
  = restore m
      (set_careTaker
         {| CareTaker.undoStack :=
              CareTaker.undoStack (careTaker a) ++ [snapshot a];
            CareTaker.redoStack := rest |} a).
Proof.
  intros Hok Hstack. unfold redo, CareTaker.pushToUndo.
  rewrite Memento_new_storable by exact Hok.
  cbn [mbind option_bind defined obind]. unfold CareTaker.redo.
  cbn [CareTaker.undoStack CareTaker.redoStack].
  rewrite Hstack, pop_back_snoc. reflexivity.
Qed.

(** [restore] succeeds on the memento of an allocated object as long as
    the text it replaces fits into the recorded capacity, or the
    capacity is the recorded one and no array is allocated. *)
Lemma restore_snapshot (a0 a : t) :
  allocated a0 -> allocated a ->
  capacity a = capacity a0 ∨ size a <= capacity a0 ->
  ∃ a', restore (snapshot a0) a = Done (a', [])
    ∧ content a' = content a0
    ∧ size a' = size a0
    ∧ capacity a' = capacity a0
    ∧ terminated a'
    ∧ careTaker a' = careTaker a
    ∧ clipboard a' = clipboard a
    ∧ Z.of_nat (length (data a')) = capacity a'.
Proof.
  intros (Hsize0 & Hcap0 & Halloc0) (Hsize & Hcap & Halloc) Hfits.
  unfold restore. cbn [snapshot savedCapacity savedSize savedData].
  assert (Hroom : ∃ d1,
    (if decide (capacity a ≠ capacity a0)
     then resize (capacity a0) a else Some a)
    = Some (set_capacity (capacity a0) (set_data d1 a))
    ∧ Z.of_nat (length d1) = capacity a0).
  { destruct (decide (capacity a ≠ capacity a0)) as [Hne | Heq].
    - rewrite resize_returns by lia. eexists. split; [reflexivity |].
      lengths.
    - apply dec_stable in Heq. exists (data a).
      split; [| lia].
      destruct a as [d s c ct cl]. cbn in *. rewrite Heq. reflexivity. }
  destruct Hroom as (d1 & -> & Hlen1).
  cbn [defined obind set_capacity set_data data size].
  unfold memcpy. rewrite load_inside
    by lengths.
  cbn [mbind option_bind]. change (Z.to_nat 0) with 0%nat.
  rewrite drop_0, take_app_le by (rewrite length_take; lia).
  rewrite take_take, Nat.min_id.
  fold (content a0).
  assert (Hcontent : length (content a0) = Z.to_nat (size a0))
    by (unfold content; rewrite length_take; lia).
  rewrite store_inside by lia.
  cbn [defined obind]. cbv zeta. cbn [set_size set_data size data].
  rewrite take_0. cbn [app Nat.add].
  rewrite store_inside
    by lengths.
  cbn [defined obind]. unfold quiet. eexists. split; [reflexivity |].
  cbn [set_size set_data set_capacity data size capacity careTaker clipboard].
  rewrite (take_app_length' (content a0)) by lia.
  split_and!; try reflexivity.
  - unfold content at 1. cbn [size data set_data set_size set_capacity].
    apply take_app_length'. lia.
  - unfold terminated, terminator.
    cbn [size data set_data set_size set_capacity].
    apply list_lookup_middle. lia.
  - rewrite !length_app, !length_drop, length_app, length_drop.
    cbn [length]. lia.
Qed.

(** [restore] has no defined result when the recorded capacity differs
    and is smaller than the text in place: [resize] copies [size]
    characters into an array of the recorded capacity. *)
Lemma restore_shrinking_faults (m : Memento) (a : t) :
  0 <= size a <= Z.of_nat (length (data a)) -> size a <= capacity a ->
  0 <= savedCapacity m < size a ->
  restore m a = Fault.
Proof.
  intros Hsize Hcap Hsaved. unfold restore.
  rewrite decide_True by lia.
  unfold resize, memcpy. rewrite load_inside by lia.
  cbn [mbind option_bind]. unfold store.
  rewrite decide_False; [reflexivity |].
  rewrite length_take, length_drop, length_new_char.
  change (Z.to_nat 0) with 0%nat. lia.
Qed.

(** Restoring the memento of a well-formed object, when it returns,
    gives a well-formed and terminated object with that buffer. *)
Lemma restore_wf (a0 a a' : t) (out : list Message) :
  wf a0 -> wf a -> restore (snapshot a0) a = Done (a', out) ->
  wf a' ∧ buffer a' = buffer a0 ∧ terminated a'
  ∧ careTaker a' = careTaker a ∧ clipboard a' = clipboard a.
Proof.
  intros Hwf0 Hwf Hrun.
  pose proof (wf_allocated a0 Hwf0) as Halloc0.
  pose proof (wf_allocated a Hwf) as Halloc.
  destruct (Z_le_gt_dec (size a) (capacity a0)) as [Hfits | Hover].
  - destruct (restore_snapshot a0 a Halloc0 Halloc (or_intror Hfits))
      as (a1 & Hrun1 & Hcontent & Hsize & Hcap & Hterm & Hct & Hclip & Hlen).
    rewrite Hrun1 in Hrun. injection Hrun as <- <-.
    destruct Hwf0 as (Hsize0 & Hcap0 & _ & Hcontent0 & _).
    destruct Hwf as (_ & _ & _ & _ & Hclip0).
    split_and!; try assumption.
    + unfold wf. rewrite Hcontent, Hclip, Hlen, Hsize, Hcap.
      split_and!; try lia; try assumption.
    + unfold buffer. rewrite Hcontent, Hsize, Hcap. reflexivity.
  - rewrite restore_shrinking_faults in Hrun; [discriminate | ..].
    + destruct Halloc as (Hsize & Hcap & Hlen). lia.
    + destruct Halloc as (Hsize & Hcap & Hlen). lia.
    + destruct Halloc0 as (Hsize0 & _). cbn [snapshot savedCapacity]. lia.
Qed.

(** [undo] brings back the text, size and capacity of the object whose
    memento is on top of the undo stack, provided the current text fits
    into that capacity. *)
Lemma undo_returns (a0 a : t) (rest : list Memento) :
  allocated a0 -> allocated a ->
  CareTaker.undoStack (careTaker a) = rest ++ [snapshot a0] ->
  size a <= capacity a0 ->
  ∃ a', undo a = Done (a', [])
    ∧ content a' = content a0
    ∧ size a' = size a0
    ∧ capacity a' = capacity a0
    ∧ terminated a'
    ∧ CareTaker.undoStack (careTaker a') = rest
    ∧ CareTaker.redoStack (careTaker a')
      = CareTaker.redoStack (careTaker a) ++ [snapshot a]
    ∧ clipboard a' = clipboard a.
Proof.
  intros Halloc0 Halloc Hstack Hfits.
  rewrite (undo_pops a rest (snapshot a0))
    by auto with buffer.
  destruct (restore_snapshot a0
              (set_careTaker
                 {| CareTaker.undoStack := rest;
                    CareTaker.redoStack :=
                      CareTaker.redoStack (careTaker a) ++ [snapshot a] |} a))
    as (a' & Hrun & Hcontent & Hsize & Hcap & Hterm & Hct & Hclip & _).
  - exact Halloc0.
  - exact Halloc.
  - right. exact Hfits.
  - exists a'. rewrite Hct.
    split_and!; try assumption; reflexivity.
Qed.

(** [undo] has no defined result when the memento on top of the undo
    stack records a capacity below the current size. *)
Lemma undo_shrinking_faults (a : t) (rest : list Memento) (m : Memento) :
  allocated a ->
  CareTaker.undoStack (careTaker a) = rest ++ [m] ->
  0 <= savedCapacity m < size a ->
  undo a = Fault.
Proof.
  intros Halloc Hstack Hsmall.
  rewrite (undo_pops a rest m)
    by auto with buffer.
  destruct Halloc as (Hsize & Hcap & Hlen).
  apply restore_shrinking_faults; cbn [set_careTaker size capacity data]; lia.
Qed.

(** One [undo] after one editing call: the buffer of before the call is
    back when the edited text is no longer than the old capacity, and
    the call has no defined result when it is longer. *)
Lemma undo_after_edit (e : Edit) (a : t) :
  wf a -> proper e a ->
  ∃ a' out, perform e a = Done (a', out)
    ∧ (size a' <= capacity a ->
       ∃ a'', undo a' = Done (a'', [])
         ∧ buffer a'' = buffer a ∧ terminated a'')
    ∧ (capacity a < size a' -> undo a' = Fault).
Proof.
  intros Hwf Hproper. pose proof (wf_allocated a Hwf) as Halloc.
  destruct (perform_returns e a Hwf Hproper)
    as (a' & out & rest & Hrun & Hundo & _ & Halloc').
  exists a', out. split; [exact Hrun |]. split.
  - intros Hfits.
    destruct (undo_returns a a' rest Halloc Halloc' Hundo Hfits)
      as (a'' & Hback & Hcontent & Hsize & Hcap & Hterm & _).
    exists a''. split; [exact Hback |]. split; [| exact Hterm].
    unfold buffer. rewrite Hcontent, Hsize, Hcap. reflexivity.
  - intros Hover.
    apply (undo_shrinking_faults a' rest (snapshot a) Halloc' Hundo).
    destruct Halloc as (Hsize & _). cbn [snapshot savedCapacity]. lia.
Qed.

(** ** The invariant of the reachable objects *)

Lemma undo_invariant (a a' : t) (out : list Message) :
  wf a -> sound_history a -> undo a = Done (a', out) ->
  wf a' ∧ sound_history a'.
Proof.
  intros Hwf (Hundo & Hredo) Hrun.
  pose proof (wf_storable a Hwf) as Hok.
  assert (Hredo' : Forall sound_memento
                     (CareTaker.redoStack (careTaker a) ++ [snapshot a])).
  { apply Forall_app. split; [exact Hredo |].
    constructor; [apply sound_snapshot; exact Hwf | constructor]. }
  destruct (snoc_cases (CareTaker.undoStack (careTaker a)))
    as [Hnil | (rest & m & Hstack)].
  - rewrite undo_nothing in Hrun by assumption.
    injection Hrun as <- <-. split.
    + apply wf_set_careTaker. exact Hwf.
    + split; [constructor | exact Hredo'].
  - rewrite (undo_pops a rest m Hok Hstack) in Hrun.
    rewrite Hstack in Hundo. apply Forall_app in Hundo as [Hrest Hm].
    apply Forall_cons in Hm as [(a0 & Hwf0 & ->) _].
    apply restore_wf in Hrun as (Hwf' & _ & _ & Hct & _);
      [| exact Hwf0 | apply wf_set_careTaker; exact Hwf].
    split; [exact Hwf' |]. unfold sound_history. rewrite Hct.
    split; assumption.
Qed.

Lemma redo_invariant (a a' : t) (out : list Message) :
  wf a -> sound_history a -> redo a = Done (a', out) ->
  wf a' ∧ sound_history a'.
Proof.
  intros Hwf (Hundo & Hredo) Hrun.
  pose proof (wf_storable a Hwf) as Hok.
  assert (Hundo' : Forall sound_memento
                     (CareTaker.undoStack (careTaker a) ++ [snapshot a])).
  { apply Forall_app. split; [exact Hundo |].
    constructor; [apply sound_snapshot; exact Hwf | constructor]. }
  destruct (snoc_cases (CareTaker.redoStack (careTaker a)))
    as [Hnil | (rest & m & Hstack)].
  - rewrite redo_nothing in Hrun by assumption.
    injection Hrun as <- <-. split.
    + apply wf_set_careTaker. exact Hwf.
    + split; [exact Hundo' | constructor].
  - rewrite (redo_pops a rest m Hok Hstack) in Hrun.
    rewrite Hstack in Hredo. apply Forall_app in Hredo as [Hrest Hm].
    apply Forall_cons in Hm as [(a0 & Hwf0 & ->) _].
    apply restore_wf in Hrun as (Hwf' & _ & _ & Hct & _);
      [| exact Hwf0 | apply wf_set_careTaker; exact Hwf].
    split; [exact Hwf' |]. unfold sound_history. rewrite Hct.
    split; assumption.
Qed.

Lemma copyText_invariant (pos len : Z) (a a' : t) (out : list Message) :
  wf a -> sound_history a ->
  0 <= pos -> 0 <= len -> pos + len < 2 ^ 64 ->
  copyText pos len a = Done (a', out) ->
  wf a' ∧ sound_history a'.
Proof.
  intros Hwf Hhist Hpos Hlen Hsum Hrun.
  destruct (invalid_range pos len a) eqn:Hrange.
  - rewrite copyText_rejects in Hrun by exact Hrange.
    injection Hrun as <- <-. split; assumption.
  - apply invalid_range_false in Hrange; [| lia ..].
    assert (Hvalid : valid_range pos len a) by (unfold valid_range; lia).
    rewrite copyText_returns in Hrun
      by auto with buffer.
    injection Hrun as <- <-. split; [| exact Hhist].
    pose proof (copied_written pos len a Hwf Hvalid) as Hclip.
    destruct Hwf as (Hsize & Hcap & Halloc & Hcontent & _).
    unfold wf, content in *.
    cbn [set_clipboard data size capacity clipboard].
    split_and!; try assumption; lia.
Qed.

Lemma perform_invariant (e : Edit) (a a' : t) (out : list Message) :
  wf a -> sound_history a -> proper e a -> perform e a = Done (a', out) ->
  wf a' ∧ sound_history a'.
Proof.
  intros Hwf (Hundo & Hredo) Hproper Hrun.
  destruct (perform_wf e a Hwf Hproper)
    as (a1 & out1 & Hrun1 & Hwf1 & Hundo1 & Hredo1).
  rewrite Hrun1 in Hrun. injection Hrun as <- <-.
  split; [exact Hwf1 |]. unfold sound_history. rewrite Hredo1.
  split; [| constructor].
  pose proof (sound_snapshot a Hwf) as Hsnap.
  destruct Hundo1 as [-> | ->]; apply Forall_app; split; try assumption;
    repeat constructor; assumption.
Qed.

(** Every reachable object is well-formed -- in particular its text is
    shorter than its capacity -- and every memento on its stacks was
    taken of a well-formed object. *)
Lemma reachable_invariant (a : t) :
  reachable a -> wf a ∧ sound_history a.
Proof.
  induction 1 as [| e a a' out _ [Hwf Hhist] Hproper Hrun
                  | pos len a a' out _ [Hwf Hhist] Hpos Hlen Hsum Hrun
                  | a a' out _ [Hwf Hhist] Hrun
                  | a a' out _ [Hwf Hhist] Hrun].
  - split; [exact wf_new | split; constructor].
  - exact (perform_invariant e a a' out Hwf Hhist Hproper Hrun).
  - exact (copyText_invariant pos len a a' out Hwf Hhist Hpos Hlen Hsum Hrun).
  - exact (undo_invariant a a' out Hwf Hhist Hrun).
  - exact (redo_invariant a a' out Hwf Hhist Hrun).
Qed.

(** In every reachable object the text is shorter than the array. *)
Lemma reachable_size_below_capacity (a : t) :
  reachable a -> 0 <= size a < capacity a.
Proof.
  intros Hreach. destruct (reachable_invariant a Hreach) as [Hwf _].
  destruct Hwf as (Hsize & _). exact Hsize.
Qed.

(** ** Concrete objects *)

Lemma append_hello : append (text_of "hello") new = Done (hello, []).
Proof. vm_compute. reflexivity. Qed.

Lemma wf_hello : wf hello.
Proof.
  unfold wf. split_and!; try (cbn; lia); try reflexivity.
  - unfold content. cbn. repeat constructor; eexists; reflexivity.
  - constructor.
Qed.

Lemma valid_range_hello : valid_range 1 3 hello.
Proof. unfold valid_range. cbn. lia. Qed.

Lemma undo_hello : undo hello = Done (hello_undone, []).
Proof. vm_compute. reflexivity. Qed.

Lemma wf_hello_undone : wf hello_undone.
Proof.
  unfold wf. split_and!; try (cbn; lia); try reflexivity; constructor.
Qed.

(** The scenario of the specification, as far as the source defines it. *)

Example scenario_append :
  buffer_after (append (text_of "hello") new)
  = Done (Some <$> text_of "hello", 5, 10).
Proof. vm_compute. reflexivity. Qed.

Example scenario_append_again :
  buffer_after (append (text_of " world") hello)
  = Done (Some <$> text_of "hello world", 11, 20).
Proof. vm_compute. reflexivity. Qed.

Example scenario_undo :
  buffer_after (undo hello) = Done ([], 0, 10).
Proof. vm_compute. reflexivity. Qed.

Example scenario_redo :
  buffer_after (redo hello_undone) = Done (Some <$> text_of "hello", 5, 10).
Proof. vm_compute. reflexivity. Qed.

Example scenario_delete :
  buffer_after (deleteText 1 3 hello) = Done (Some <$> text_of "ho", 2, 10).
Proof. vm_compute. reflexivity. Qed.

Example scenario_replace :
  buffer_after (insertAndReplace 0 (text_of "J") 1 hello)
  = Done (Some <$> text_of "Jello", 5, 10).
Proof. vm_compute. reflexivity. Qed.

(** * The claims of the specification *)

(** ** Error handling: calls that reject their arguments *)

(** C1, as stated, fails: on a new object [deleteText(0, 0)] reports an
    invalid range and returns an object that differs from the one it
    was called on. *)
Lemma detected_error_mutates_history :
  ¬ (∀ (a a' : t) (pos len : Z) (out : list Message),
       storable a -> invalid_range pos len a = true ->
       deleteText pos len a = Done (a', out) -> a' = a).
Proof.
  intros Hclaim.
  specialize (Hclaim new (recorded new) 0 0 [InvalidPositionOrLength]
                storable_new eq_refl eq_refl).
  discriminate Hclaim.
Qed.

(** C1, amended.  When [deleteText] or [cutText] is given a range the
    test rejects, or [pasteText] a position behind the text, the call
    prints its message and leaves data, size, capacity and clipboard as
    they were, but it has recorded first: the undo stack holds one more
    memento, of the current state, and the redo stack is empty.
    [copyText] on a rejected range changes nothing at all. *)
Theorem detected_errors_keep_buffer_but_record (a : t) (pos len : Z) :
  storable a ->
  (invalid_range pos len a = true ->
     deleteText pos len a = Done (recorded a, [InvalidPositionOrLength])
     ∧ cutText pos len a = Done (recorded a, [InvalidPositionOrLength])
     ∧ copyText pos len a = Done (a, [InvalidPositionOrLength]))
  ∧ (size a < pos -> pasteText pos a = Done (recorded a, [InvalidPosition]))
  ∧ data (recorded a) = data a
  ∧ size (recorded a) = size a
  ∧ capacity (recorded a) = capacity a
  ∧ clipboard (recorded a) = clipboard a
  ∧ CareTaker.undoStack (careTaker (recorded a))
    = CareTaker.undoStack (careTaker a) ++ [snapshot a]
  ∧ CareTaker.redoStack (careTaker (recorded a)) = [].
Proof.
  intros Hok. split_and!; try reflexivity.
  - intros Hrange. split_and!.
    + apply deleteText_rejects; assumption.
    + apply cutText_rejects; assumption.
    + apply copyText_rejects; assumption.
  - intros Hpos. apply pasteText_rejects; assumption.
Qed.

Lemma detected_errors_keep_buffer_but_record_witness :
  storable hello
  ∧ deleteText 7 1 hello = Done (recorded hello, [InvalidPositionOrLength])
  ∧ cutText 7 1 hello = Done (recorded hello, [InvalidPositionOrLength])
  ∧ copyText 7 1 hello = Done (hello, [InvalidPositionOrLength])
  ∧ pasteText 7 hello = Done (recorded hello, [InvalidPosition]).
Proof.
  assert (Hok : storable hello) by (unfold storable; cbn; lia).
  destruct (detected_errors_keep_buffer_but_record hello 7 1 Hok)
    as (Hrange & Hpaste & _).
  destruct (Hrange eq_refl) as (Hdelete & Hcut & Hcopy).
  split_and!; try assumption.
  apply Hpaste. cbn. lia.
Defined.

(** ** Undo after one editing call *)

(** C2. The spec's own scenario: "hello" and then " world" are appended
    to a new object, which takes the capacity from 10 to 20 with 11
    characters of text; [undo()] then calls [resize(10)], whose
    [memcpy] of 11 characters overruns the array of 10, so the call has
    no defined result instead of restoring "hello". *)
Theorem undo_after_growing_append_overruns :
  ∃ a, calls [append (text_of "hello"); append (text_of " world")] new
       = Done (a, [])
    ∧ size a = 11 ∧ capacity a = 20
    ∧ (savedCapacity <$> last (CareTaker.undoStack (careTaker a))) = Some 10
    ∧ undo a = Fault.
Proof.
  eexists. split; [vm_compute; reflexivity |].
  split_and!; vm_compute; reflexivity.
Qed.

(** ** History entries of [cutText] *)

(** C3, as stated, fails: cutting "ell" out of "hello" leaves three
    mementos on an undo stack that held one. *)
Lemma cutText_pushes_two :
  ¬ (∀ (a a' : t) (pos len : Z) (out : list Message),
       wf a -> valid_range pos len a ->
       cutText pos len a = Done (a', out) ->
       length (CareTaker.undoStack (careTaker a'))
       = S (length (CareTaker.undoStack (careTaker a)))).
Proof.
  intros Hclaim.
  pose proof (cutText_returns 1 3 hello (wf_allocated _ wf_hello)
                valid_range_hello) as Hrun.
  specialize (Hclaim hello _ 1 3 [] wf_hello valid_range_hello Hrun).
  vm_compute in Hclaim. discriminate Hclaim.
Qed.

(** C3, amended.  On a valid range [cutText] returns with two more
    mementos on the undo stack, both of the state before the cut: its
    own [saveState] and the one of the [deleteText] it calls;
    [copyText] records nothing.  The redo stack is empty. *)
Theorem cutText_records_twice (a : t) (pos len : Z) :
  wf a -> valid_range pos len a ->
  ∃ a', cutText pos len a = Done (a', [])
    ∧ CareTaker.undoStack (careTaker a')
      = CareTaker.undoStack (careTaker a) ++ [snapshot a; snapshot a]
    ∧ CareTaker.redoStack (careTaker a') = []
    ∧ (∃ s, copyText pos len a = Done (set_clipboard s a, [])).
Proof.
  intros Hwf Hrange. pose proof (wf_allocated a Hwf) as Halloc.
  eexists. split; [apply cutText_returns; assumption |].
  split_and!.
  - cbn. rewrite <- app_assoc. reflexivity.
  - reflexivity.
  - eexists. apply copyText_returns; assumption.
Qed.

Lemma cutText_records_twice_witness :
  wf hello ∧ valid_range 1 3 hello
  ∧ ∃ a', cutText 1 3 hello = Done (a', [])
      ∧ CareTaker.undoStack (careTaker a')
        = [snapshot new; snapshot hello; snapshot hello].
Proof.
  split; [exact wf_hello |]. split; [exact valid_range_hello |].
  destruct (cutText_records_twice hello 1 3 wf_hello valid_range_hello)
    as (a' & Hrun & Hundo & _).
  exists a'. split; [exact Hrun | exact Hundo].
Defined.

(** ** Redo after a new edit *)

(** C4. An editing call, also one made after any number of [undo()]
    calls, returns with an empty redo stack; the [redo()] that follows
    prints that it cannot redo and leaves data, size, capacity and
    clipboard as the edit left them. *)
Theorem edit_discards_redo (e : Edit) (a : t) :
  wf a -> proper e a ->
  ∃ a' out a'', perform e a = Done (a', out)
    ∧ CareTaker.redoStack (careTaker a') = []
    ∧ redo a' = Done (a'', [CannotRedoFurther])
    ∧ data a'' = data a' ∧ size a'' = size a' ∧ capacity a'' = capacity a'
    ∧ clipboard a'' = clipboard a'
    ∧ content a'' = content a'
    ∧ CareTaker.redoStack (careTaker a'') = [].
Proof.
  intros Hwf Hproper.
  destruct (perform_returns e a Hwf Hproper)
    as (a' & out & rest & Hrun & _ & Hredo & Halloc).
  pose proof (allocated_storable a' Halloc) as Hok.
  eexists a', out, _. split; [exact Hrun |]. split; [exact Hredo |].
  split; [apply redo_nothing; assumption |].
  split_and!; reflexivity.
Qed.

Lemma edit_discards_redo_witness :
  wf hello_undone ∧ proper (Append (text_of "J")) hello_undone
  ∧ CareTaker.redoStack (careTaker hello_undone) = [snapshot hello]
  ∧ ∃ a' out a'', append (text_of "J") hello_undone = Done (a', out)
      ∧ CareTaker.redoStack (careTaker a') = []
      ∧ redo a' = Done (a'', [CannotRedoFurther])
      ∧ content a'' = content a'.
Proof.
  assert (Hproper : proper (Append (text_of "J")) hello_undone)
    by (vm_compute; reflexivity).
  split; [exact wf_hello_undone |]. split; [exact Hproper |].
  split; [reflexivity |].
  destruct (edit_discards_redo (Append (text_of "J")) hello_undone
              wf_hello_undone Hproper)
    as (a' & out & a'' & Hrun & Hredo & Hagain & _ & _ & _ & _ & Hcontent & _).
  exists a', out, a''. split_and!; assumption.
Defined.

(** ** The terminator *)

(** C5. On a new object, [insertAndReplace(0, "0123456789", 0)] has to
    grow; it returns with 10 characters of text in 20 cells, and the
    cell behind the text is one nobody wrote: [resize] did not copy the
    terminator, so the [memmove] that should carry it along copies an
    indeterminate character.  The first half of the invariant, a size
    below the capacity, does hold here as in every reachable object. *)
Theorem insertAndReplace_loses_terminator :
  ∃ a, insertAndReplace 0 (text_of "0123456789") 0 new = Done (a, [])
    ∧ reachable a
    ∧ size a = 10 ∧ capacity a = 20
    ∧ content a = (Some <$> text_of "0123456789")
    ∧ terminator a = Some None
    ∧ ¬ terminated a.
Proof.
  eexists. split; [vm_compute; reflexivity |].
  split.
  { apply (reachable_edit (InsertAndReplace 0 (text_of "0123456789") 0)
             new _ []); [exact reachable_new | | vm_compute; reflexivity].
    vm_compute. split_and!; congruence. }
  split_and!; try (vm_compute; reflexivity).
  unfold terminated. vm_compute. discriminate.
Qed.

(** ** [cutText] against [copyText] and [deleteText] *)

(** C6, as stated, fails: on "hello", [cutText(1, 3)] and
    [copyText(1, 3)] followed by [deleteText(1, 3)] return different
    objects. *)
Lemma cutText_is_not_copy_then_delete :
  ¬ (∀ (a : t) (pos len : Z),
       wf a -> valid_range pos len a ->
       cutText pos len a = andThen (copyText pos len) (deleteText pos len) a).
Proof.
  intros Hclaim.
  specialize (Hclaim hello 1 3 wf_hello valid_range_hello).
  vm_compute in Hclaim. discriminate Hclaim.
Qed.

(** C6, amended.  On a valid range [cutText] and [copyText] followed by
    [deleteText] return with the same data, size, capacity, clipboard
    and (empty) redo stack, and data, size and capacity are those
    [deleteText] alone produces, which leaves the clipboard as it was.
    The undo stacks differ: [cutText] has recorded the state before the
    cut once more than the other two. *)
Theorem cutText_copy_delete (a : t) (pos len : Z) :
  wf a -> valid_range pos len a ->
  ∃ cut both del,
    cutText pos len a = Done (cut, [])
    ∧ andThen (copyText pos len) (deleteText pos len) a = Done (both, [])
    ∧ deleteText pos len a = Done (del, [])
    ∧ data cut = data both ∧ size cut = size both
    ∧ capacity cut = capacity both
    ∧ clipboard cut = clipboard both
    ∧ CareTaker.redoStack (careTaker cut) = []
    ∧ CareTaker.redoStack (careTaker both) = []
    ∧ CareTaker.undoStack (careTaker cut)
      = CareTaker.undoStack (careTaker both) ++ [snapshot a]
    ∧ data cut = data del ∧ size cut = size del
    ∧ capacity cut = capacity del
    ∧ content cut = content del
    ∧ careTaker both = careTaker del
    ∧ clipboard del = clipboard a.
Proof.
  intros Hwf Hrange. pose proof (wf_allocated a Hwf) as Halloc.
  eexists _, _, _.
  split; [apply cutText_returns; assumption |].
  split.
  { unfold andThen. rewrite copyText_returns by assumption.
    cbn [obind fst snd].
    rewrite deleteText_returns by assumption. reflexivity. }
  split; [apply deleteText_returns; assumption |].
  split_and!; reflexivity.
Qed.

Lemma cutText_copy_delete_witness :
  wf hello ∧ valid_range 1 3 hello
  ∧ ∃ cut both del,
      cutText 1 3 hello = Done (cut, [])
      ∧ andThen (copyText 1 3) (deleteText 1 3) hello = Done (both, [])
      ∧ deleteText 1 3 hello = Done (del, [])
      ∧ content cut = content del
      ∧ clipboard cut = clipboard both.
Proof.
  split; [exact wf_hello |]. split; [exact valid_range_hello |].
  destruct (cutText_copy_delete hello 1 3 wf_hello valid_range_hello)
    as (cut & both & del & Hcut & Hboth & Hdel & _ & _ & _ & Hclip & _ & _
        & _ & _ & _ & _ & Hcontent & _).
  exists cut, both, del. split_and!; assumption.
Defined.

(** ** History entries of [pasteText] *)

(** C7. One [pasteText] at a position inside the text returns with
    exactly two more mementos on the undo stack: the one [pasteText]
    records and the one [insertAndReplace] records when it is called. *)
Theorem pasteText_records_twice (a : t) (pos : Z) :
  wf a -> 0 <= pos <= size a ->
  size a + Z.of_nat (length (clipboard a)) < 2 ^ 63 ->
  ∃ a', pasteText pos a = Done (a', [])
    ∧ CareTaker.undoStack (careTaker a')
      = CareTaker.undoStack (careTaker a) ++ [snapshot a; snapshot a]
    ∧ length (CareTaker.undoStack (careTaker a'))
      = (length (CareTaker.undoStack (careTaker a)) + 2)%nat.
Proof.
  intros Hwf Hpos Hsum.
  destruct (pasteText_returns pos a Hwf Hpos Hsum)
    as (a' & text & Hrun & _ & Hundo & _).
  exists a'. split_and!; [exact Hrun | exact Hundo |].
  rewrite Hundo, length_app. reflexivity.
Qed.

Lemma pasteText_records_twice_witness :
  wf hello ∧ 0 <= 2 <= size hello
  ∧ size hello + Z.of_nat (length (clipboard hello)) < 2 ^ 63
  ∧ ∃ a', pasteText 2 hello = Done (a', [])
      ∧ CareTaker.undoStack (careTaker a')
        = [snapshot new; snapshot hello; snapshot hello].
Proof.
  assert (Hpos : 0 <= 2 <= size hello) by (cbn; lia).
  assert (Hsum : size hello + Z.of_nat (length (clipboard hello)) < 2 ^ 63)
    by (cbn; lia).
  split; [exact wf_hello |]. split; [exact Hpos |]. split; [exact Hsum |].
  destruct (pasteText_records_twice hello 2 wf_hello Hpos Hsum)
    as (a' & Hrun & Hundo & _).
  exists a'. split; [exact Hrun | exact Hundo].
Defined.

(** ** Undo and redo with nothing to pop *)

(** C8. [undo] pushes the current state on the redo stack before it
    looks at the undo stack, and [redo] does the same the other way
    round: when the stack to pop is empty the call prints its message,
    leaves data, size, capacity and clipboard as they were, and the
    opposite stack has gained one memento of the current state. *)
Theorem failed_undo_redo_leave_entry (a : t) :
  storable a ->
  (CareTaker.undoStack (careTaker a) = [] ->
   ∃ a', undo a = Done (a', [CannotUndoFurther])
     ∧ CareTaker.redoStack (careTaker a')
       = CareTaker.redoStack (careTaker a) ++ [snapshot a]
     ∧ CareTaker.undoStack (careTaker a') = []
     ∧ data a' = data a ∧ size a' = size a ∧ capacity a' = capacity a
     ∧ clipboard a' = clipboard a)
  ∧ (CareTaker.redoStack (careTaker a) = [] ->
     ∃ a', redo a = Done (a', [CannotRedoFurther])
       ∧ CareTaker.undoStack (careTaker a')
         = CareTaker.undoStack (careTaker a) ++ [snapshot a]
       ∧ CareTaker.redoStack (careTaker a') = []
       ∧ data a' = data a ∧ size a' = size a ∧ capacity a' = capacity a
       ∧ clipboard a' = clipboard a).
Proof.
  intros Hok. split; intros Hempty.
  - eexists. split; [apply undo_nothing; assumption |].
    cbn. repeat split; reflexivity.
  - eexists. split; [apply redo_nothing; assumption |].
    cbn. repeat split; reflexivity.
Qed.

Lemma failed_undo_redo_leave_entry_witness :
  storable new
  ∧ (∃ a', undo new = Done (a', [CannotUndoFurther])
       ∧ CareTaker.redoStack (careTaker a') = [snapshot new]
       ∧ data a' = data new)
  ∧ (∃ a', redo new = Done (a', [CannotRedoFurther])
       ∧ CareTaker.undoStack (careTaker a') = [snapshot new]
       ∧ data a' = data new).
Proof.
  split; [exact storable_new |].
  destruct (failed_undo_redo_leave_entry new storable_new) as [Hu Hr].
  split.
  - destruct (Hu eq_refl) as (a' & Hrun & Hredo & _ & Hdata & _).
    exists a'. repeat split; assumption.
  - destruct (Hr eq_refl) as (a' & Hrun & Hundo & _ & Hdata & _).
    exists a'. repeat split; assumption.
Defined.

(** ** Undo after [pasteText] *)

(** C9. Twelve characters are appended to a new object, copied, and
    pasted at the front.  The paste returns with the two mementos it
    pushed equal, both of the state before it, and has grown the array
    from 20 to 48 cells for 24 characters; [undo()] then calls
    [resize(20)], whose [memcpy] of 24 characters overruns the array of
    20: the call has no defined result instead of restoring the state
    before the paste. *)
Theorem undo_after_growing_paste_overruns :
  ∃ a0 a,
    calls [append (text_of "0123456789ab"); copyText 0 12] new
    = Done (a0, [])
    ∧ pasteText 0 a0 = Done (a, [])
    ∧ CareTaker.undoStack (careTaker a)
      = CareTaker.undoStack (careTaker a0) ++ [snapshot a0; snapshot a0]
    ∧ capacity a0 = 20 ∧ size a = 24 ∧ capacity a = 48
    ∧ undo a = Fault.
Proof.
  eexists _, _. split; [vm_compute; reflexivity |].
  split; [vm_compute; reflexivity |].
  split_and!; vm_compute; reflexivity.
Qed.

(** ** Appending the empty string *)

(** C10. Appending the empty string changes neither the text nor size,
    capacity or clipboard, and yet it records: the undo stack gains a
    memento of the current state and the redo stack is emptied.  The
    only cell the call writes is [data[size]], which receives the
    terminator it already holds in a terminated buffer. *)
Theorem append_empty_still_records (a : t) :
  wf a ->
  ∃ a', append [] a = Done (a', [])
    ∧ content a' = content a
    ∧ size a' = size a
    ∧ capacity a' = capacity a
    ∧ clipboard a' = clipboard a
    ∧ CareTaker.undoStack (careTaker a')
      = CareTaker.undoStack (careTaker a) ++ [snapshot a]
    ∧ CareTaker.redoStack (careTaker a') = []
    ∧ (terminated a -> data a' = data a).
Proof.
  intros Hwf.
  assert (Hfit : size a + strlen [] < capacity a)
    by (destruct Hwf as (Hsize & _); change (strlen []) with 0; lia).
  destruct (append_returns [] a Hwf) as
    (a' & Hrun & Hct & Hclip & Hsize' & _ & _ & _ & Hcontent & _ & Hsame).
  { right. exact Hfit. }
  destruct (Hsame Hfit) as [Hcap' Hdata'].
  exists a'. split_and!.
  - exact Hrun.
  - rewrite Hcontent. cbn. apply app_nil_r.
  - rewrite Hsize'. change (strlen []) with 0. lia.
  - exact Hcap'.
  - exact Hclip.
  - rewrite Hct. reflexivity.
  - rewrite Hct. reflexivity.
  - intros Hterm. rewrite Hdata'. unfold content. cbn.
    rewrite Nat.add_1_r. apply take_drop_middle. exact Hterm.
Qed.

Lemma append_empty_still_records_witness :
  wf hello_undone
  ∧ CareTaker.redoStack (careTaker hello_undone) = [snapshot hello]
  ∧ ∃ a', append [] hello_undone = Done (a', [])
      ∧ content a' = content hello_undone
      ∧ CareTaker.undoStack (careTaker a') = [snapshot hello_undone]
      ∧ CareTaker.redoStack (careTaker a') = [].
Proof.
  split; [exact wf_hello_undone |]. split; [reflexivity |].
  destruct (append_empty_still_records hello_undone wf_hello_undone)
    as (a' & Hrun & Hcontent & _ & _ & _ & Hundo & Hredo & _).
  exists a'. split_and!; assumption.
Defined.

(** * Further properties of the code *)

(** ** Text without terminators *)

Lemma character_written (c : cell) : character c -> is_Some c.
Proof. intros (b & -> & _). eexists. reflexivity. Qed.

Lemma plain_written (l : list cell) : plain l -> Forall is_Some l.
Proof.
  intros Hplain. apply (Forall_impl _ _ _ Hplain). exact character_written.
Qed.

Lemma plain_cstring (text : list byte) : plain (Some <$> cstring text).
Proof.
  induction text as [| b text IH]; [constructor |].
  cbn [cstring]. destruct (Byte.eqb b NUL) eqn:Hnul; [constructor |].
  constructor; [| exact IH].
  exists b. split; [reflexivity | apply Byte.eqb_false; exact Hnul].
Qed.

(** Plain cells are the characters of a string that [strlen] reads to
    its end. *)
Lemma plain_text (l : list cell) :
  plain l -> ∃ text, l = Some <$> text ∧ cstring text = text.
Proof.
  induction 1 as [| c l (b & -> & Hb) _ (text & -> & Hfix)].
  - exists []. split; reflexivity.
  - exists (b :: text). split; [reflexivity |].
    cbn [cstring]. destruct (Byte.eqb b NUL) eqn:Hnul.
    + apply Byte.byte_dec_bl in Hnul. contradiction.
    + rewrite Hfix. reflexivity.
Qed.

Lemma plain_fixed (text : list byte) :
  cstring text = text -> plain (Some <$> text).
Proof. intros <-. apply plain_cstring. Qed.

Lemma read_cstring_terminated (text : list byte) (rest : list cell) :
  cstring text = text ->
  read_cstring ((Some <$> text) ++ Some NUL :: rest) = Some text.
Proof.
  induction text as [| b text IH]; intros Hfix.
  - reflexivity.
  - cbn [cstring] in Hfix. cbn [fmap list_fmap app read_cstring].
    destruct (Byte.eqb b NUL); [discriminate |].
    injection Hfix as Hfix. change (list_fmap _ _ Some text) with (Some <$> text).
    rewrite (IH Hfix). reflexivity.
Qed.

Lemma read_cstring_gap (text : list byte) (rest : list cell) :
  cstring text = text ->
  read_cstring ((Some <$> text) ++ None :: rest) = None.
Proof.
  induction text as [| b text IH]; intros Hfix.
  - reflexivity.
  - cbn [cstring] in Hfix. cbn [fmap list_fmap app read_cstring].
    destruct (Byte.eqb b NUL); [discriminate |].
    injection Hfix as Hfix. change (list_fmap _ _ Some text) with (Some <$> text).
    rewrite (IH Hfix). reflexivity.
Qed.

Lemma c_str_text (text : list byte) :
  cstring text = text -> c_str (Some <$> text) = Some text.
Proof.
  induction text as [| b text IH]; intros Hfix.
  - reflexivity.
  - cbn [cstring] in Hfix. cbn [fmap list_fmap c_str].
    destruct (Byte.eqb b NUL); [discriminate |].
    injection Hfix as Hfix. change (list_fmap _ _ Some text) with (Some <$> text).
    rewrite (IH Hfix). reflexivity.
Qed.

Lemma cstring_idemp (text : list byte) : cstring (cstring text) = cstring text.
Proof.
  induction text as [| b text IH]; [reflexivity |].
  cbn [cstring]. destruct (Byte.eqb b NUL) eqn:Hnul; [reflexivity |].
  cbn [cstring]. rewrite Hnul, IH. reflexivity.
Qed.

(** The array of an object splits into text, the cell behind it and the
    rest. *)
Lemma data_split (a : t) (c : cell) :
  terminator a = Some c ->
  data a = content a ++ c :: drop (S (Z.to_nat (size a))) (data a).
Proof.
  intros Hterm. symmetry. apply take_drop_middle. exact Hterm.
Qed.

(** ** What the range calls leave, in terms of the text *)

(** The text after a deletion: what was before the span and what was
    behind it. *)
Lemma erased_text (pos len : Z) (a : t) (rest : list cell) :
  allocated a -> valid_range pos len a ->
  take (Z.to_nat (size a - len))
    (take (Z.to_nat pos) (data a)
       ++ take (Z.to_nat (size a - pos - len))
            (drop (Z.to_nat (pos + len)) (data a))
       ++ Some NUL :: rest)
  = take (Z.to_nat pos) (content a)
      ++ drop (Z.to_nat (pos + len)) (content a).
Proof.
  intros (Hsize & Hcap & Halloc) (Hpos & Hlen & Hsum). unfold content.
  apply erased_content; lia.
Qed.

(** The span [copyText] takes lies in the text. *)
Lemma copied_span (pos len : Z) (a : t) :
  valid_range pos len a ->
  take (Z.to_nat len) (drop (Z.to_nat pos) (data a))
  = take (Z.to_nat len) (drop (Z.to_nat pos) (content a)).
Proof.
  intros (Hpos & Hlen & Hsum). unfold content.
  rewrite !take_drop_commute, take_take. do 2 f_equal. lia.
Qed.

Lemma deleteText_text (pos len : Z) (a a' : t) (out : list Message) :
  allocated a -> valid_range pos len a ->
  deleteText pos len a = Done (a', out) ->
  out = []
  ∧ content a' = take (Z.to_nat pos) (content a)
                   ++ drop (Z.to_nat (pos + len)) (content a)
  ∧ size a' = size a - len
  ∧ capacity a' = capacity a
  ∧ clipboard a' = clipboard a
  ∧ careTaker a' = careTaker (recorded a)
  ∧ terminated a'.
Proof.
  intros Halloc Hrange Hrun.
  rewrite deleteText_returns in Hrun by assumption.
  injection Hrun as <- <-.
  split_and!; try reflexivity.
  - unfold content at 1. cbn [set_data set_size data size].
    apply erased_text; assumption.
  - unfold terminated, terminator. cbn [set_data set_size data size].
    destruct Halloc as (Hsize & Hcap & Halloc).
    destruct Hrange as (Hpos & Hlen & Hsum).
    rewrite app_assoc. apply list_lookup_middle. lengths.
Qed.

Lemma cutText_text (pos len : Z) (a a' : t) (out : list Message) :
  allocated a -> valid_range pos len a ->
  cutText pos len a = Done (a', out) ->
  out = []
  ∧ content a' = take (Z.to_nat pos) (content a)
                   ++ drop (Z.to_nat (pos + len)) (content a)
  ∧ size a' = size a - len
  ∧ capacity a' = capacity a
  ∧ clipboard a' = take (Z.to_nat len) (drop (Z.to_nat pos) (content a))
  ∧ terminated a'.
Proof.
  intros Halloc Hrange Hrun.
  rewrite cutText_returns in Hrun by assumption.
  injection Hrun as <- <-.
  split_and!; try reflexivity.
  - unfold content at 1. cbn [set_data set_size data size].
    apply erased_text; assumption.
  - cbn [set_data set_size recorded set_careTaker set_clipboard clipboard].
    apply copied_span. exact Hrange.
  - unfold terminated, terminator. cbn [set_data set_size data size].
    destruct Halloc as (Hsize & Hcap & Halloc).
    destruct Hrange as (Hpos & Hlen & Hsum).
    rewrite app_assoc. apply list_lookup_middle. lengths.
Qed.

(** ** Reachable objects hold text only *)

Lemma plain_app (l k : list cell) : plain l -> plain k -> plain (l ++ k).
Proof. intros Hl Hk. apply Forall_app. split; assumption. Qed.

Lemma plain_take (n : nat) (l : list cell) : plain l -> plain (take n l).
Proof. apply Forall_take. Qed.

Lemma plain_drop (n : nat) (l : list cell) : plain l -> plain (drop n l).
Proof. apply Forall_drop. Qed.

#[local] Hint Resolve plain_app plain_take plain_drop plain_cstring
  plain_fixed : buffer.

Lemma perform_plain (e : Edit) (a a' : t) (out : list Message) :
  plain_state a -> proper e a -> perform e a = Done (a', out) ->
  plain_state a'.
Proof.
  intros (Hwf & Hcontent & Hclip) Hproper Hrun.
  assert (Hwf' : wf a').
  { destruct (perform_wf e a Hwf Hproper) as (a1 & out1 & Hrun1 & Hwf1 & _).
    rewrite Hrun1 in Hrun. injection Hrun as <- <-. exact Hwf1. }
  split; [exact Hwf' |].
  pose proof (wf_allocated a Hwf) as Halloc.
  pose proof (allocated_storable a Halloc) as Hok.
  destruct e as [text | pos sub rl | pos len | pos len | pos];
    cbn [perform proper] in *.
  - destruct (append_returns text a Hwf) as
      (a1 & Hrun1 & _ & Hclip1 & _ & _ & _ & _ & Hcontent1 & _);
      [left; lia |].
    rewrite Hrun1 in Hrun. injection Hrun as <- <-.
    rewrite Hcontent1, Hclip1. auto with buffer.
  - destruct Hproper as (Hpos & Hrl & Hspan & Hsum).
    destruct (insertAndReplace_returns pos sub rl a Hwf Hpos Hrl Hspan Hsum)
      as (a1 & Hrun1 & _ & Hclip1 & _ & _ & _ & _ & Hcontent1 & _).
    rewrite Hrun1 in Hrun. injection Hrun as <- <-.
    rewrite Hcontent1, Hclip1. auto 6 with buffer.
  - destruct Hproper as (Hpos & Hlen & Hsum).
    destruct (invalid_range pos len a) eqn:Hrange.
    + rewrite deleteText_rejects in Hrun by assumption.
      injection Hrun as <- <-. split; assumption.
    + apply invalid_range_false in Hrange; [| lia ..].
      assert (Hvalid : valid_range pos len a) by (unfold valid_range; lia).
      apply deleteText_text in Hrun as (_ & -> & _ & _ & -> & _);
        auto with buffer.
  - destruct Hproper as (Hpos & Hlen & Hsum).
    destruct (invalid_range pos len a) eqn:Hrange.
    + rewrite cutText_rejects in Hrun by assumption.
      injection Hrun as <- <-. split; assumption.
    + apply invalid_range_false in Hrange; [| lia ..].
      assert (Hvalid : valid_range pos len a) by (unfold valid_range; lia).
      apply cutText_text in Hrun as (_ & -> & _ & _ & -> & _);
        auto with buffer.
  - destruct Hproper as (Hpos & Hsum).
    destruct (pos >? size a) eqn:Hgt.
    + apply gtb_true in Hgt.
      rewrite pasteText_rejects in Hrun by assumption.
      injection Hrun as <- <-. split; assumption.
    + apply gtb_false in Hgt.
      destruct (pasteText_returns pos a Hwf) as
        (a1 & text & Hrun1 & Hread & _ & _ & Hclip1 & _ & _ & _ & _
         & Hcontent1 & _); [lia | lia |].
      rewrite Hrun1 in Hrun. injection Hrun as <- <-.
      rewrite Hcontent1, Hclip1.
      destruct (c_str_initialised (clipboard a)) as (text' & Hread' & Hfix & _);
        [apply plain_written; exact Hclip |].
      rewrite Hread' in Hread. injection Hread as ->.
      auto 6 with buffer.
Qed.

Lemma plain_snapshot (a : t) : plain_state a -> plain_memento (snapshot a).
Proof. intros Hplain. exists a. split; [exact Hplain | reflexivity]. Qed.

Lemma plain_state_set_careTaker (c : CareTaker.t) (a : t) :
  plain_state a -> plain_state (set_careTaker c a).
Proof.
  intros (Hwf & Hcontent & Hclip).
  split; [apply wf_set_careTaker; exact Hwf | split; assumption].
Qed.

Lemma restore_plain (a0 a a' : t) (out : list Message) :
  plain_state a0 -> plain_state a ->
  restore (snapshot a0) a = Done (a', out) ->
  plain_state a' ∧ careTaker a' = careTaker a.
Proof.
  intros (Hwf0 & Hcontent0 & _) (Hwf & _ & Hclip) Hrun.
  apply restore_wf in Hrun as (Hwf' & Hbuffer & _ & Hct & Hclip');
    [| assumption ..].
  injection Hbuffer as Hcontent' _ _.
  split; [| exact Hct].
  split; [exact Hwf' |]. rewrite Hcontent', Hclip'. split; assumption.
Qed.

Lemma undo_plain (a a' : t) (out : list Message) :
  plain_state a -> plain_history a -> undo a = Done (a', out) ->
  plain_state a' ∧ plain_history a'.
Proof.
  intros Hplain (Hundo & Hredo) Hrun.
  pose proof (wf_storable a (proj1 Hplain)) as Hok.
  assert (Hredo' : Forall plain_memento
                     (CareTaker.redoStack (careTaker a) ++ [snapshot a])).
  { apply Forall_app. split; [exact Hredo |].
    constructor; [apply plain_snapshot; exact Hplain | constructor]. }
  destruct (snoc_cases (CareTaker.undoStack (careTaker a)))
    as [Hnil | (rest & m & Hstack)].
  - rewrite undo_nothing in Hrun by assumption.
    injection Hrun as <- <-. split.
    + apply plain_state_set_careTaker. exact Hplain.
    + split; [constructor | exact Hredo'].
  - rewrite (undo_pops a rest m Hok Hstack) in Hrun.
    rewrite Hstack in Hundo. apply Forall_app in Hundo as [Hrest Hm].
    apply Forall_cons in Hm as [(a0 & Hplain0 & ->) _].
    apply restore_plain in Hrun as (Hplain' & Hct);
      [| exact Hplain0 | apply plain_state_set_careTaker; exact Hplain].
    split; [exact Hplain' |]. unfold plain_history. rewrite Hct.
    split; assumption.
Qed.

Lemma redo_plain (a a' : t) (out : list Message) :
  plain_state a -> plain_history a -> redo a = Done (a', out) ->
  plain_state a' ∧ plain_history a'.
Proof.
  intros Hplain (Hundo & Hredo) Hrun.
  pose proof (wf_storable a (proj1 Hplain)) as Hok.
  assert (Hundo' : Forall plain_memento
                     (CareTaker.undoStack (careTaker a) ++ [snapshot a])).
  { apply Forall_app. split; [exact Hundo |].
    constructor; [apply plain_snapshot; exact Hplain | constructor]. }
  destruct (snoc_cases (CareTaker.redoStack (careTaker a)))
    as [Hnil | (rest & m & Hstack)].
  - rewrite redo_nothing in Hrun by assumption.
    injection Hrun as <- <-. split.
    + apply plain_state_set_careTaker. exact Hplain.
    + split; [exact Hundo' | constructor].
  - rewrite (redo_pops a rest m Hok Hstack) in Hrun.
    rewrite Hstack in Hredo. apply Forall_app in Hredo as [Hrest Hm].
    apply Forall_cons in Hm as [(a0 & Hplain0 & ->) _].
    apply restore_plain in Hrun as (Hplain' & Hct);
      [| exact Hplain0 | apply plain_state_set_careTaker; exact Hplain].
    split; [exact Hplain' |]. unfold plain_history. rewrite Hct.
    split; assumption.
Qed.

Lemma copyText_plain (pos len : Z) (a a' : t) (out : list Message) :
  plain_state a -> 0 <= pos -> 0 <= len -> pos + len < 2 ^ 64 ->
  copyText pos len a = Done (a', out) ->
  plain_state a' ∧ careTaker a' = careTaker a.
Proof.
  intros (Hwf & Hcontent & Hclip) Hpos Hlen Hsum Hrun.
  destruct (invalid_range pos len a) eqn:Hrange.
  - rewrite copyText_rejects in Hrun by exact Hrange.
    injection Hrun as <- <-.
    split; [split; [| split]; assumption | reflexivity].
  - apply invalid_range_false in Hrange; [| lia ..].
    assert (Hvalid : valid_range pos len a) by (unfold valid_range; lia).
    rewrite copyText_returns in Hrun by auto with buffer.
    injection Hrun as <- <-.
    assert (Hspan : plain (take (Z.to_nat len)
                             (drop (Z.to_nat pos) (data a))))
      by (rewrite copied_span by exact Hvalid; auto with buffer).
    split; [| reflexivity]. split; [| split; assumption].
    destruct Hwf as (Hsize & Hcap & Halloc & Hwritten & _).
    unfold wf, content in *.
    cbn [set_clipboard data size capacity clipboard].
    split_and!; try assumption; try lia.
    apply plain_written. exact Hspan.
Qed.

Lemma plain_state_new : plain_state new.
Proof. split; [exact wf_new | split; constructor]. Qed.

Lemma reachable_plain (a : t) :
  reachable a -> plain_state a ∧ plain_history a.
Proof.
  induction 1 as [| e a a' out _ [Hplain Hhist] Hproper Hrun
                  | pos len a a' out _ [Hplain Hhist] Hpos Hlen Hsum Hrun
                  | a a' out _ [Hplain Hhist] Hrun
                  | a a' out _ [Hplain Hhist] Hrun].
  - split; [exact plain_state_new | split; constructor].
  - split; [exact (perform_plain e a a' out Hplain Hproper Hrun) |].
    destruct Hhist as (Hundo & _).
    destruct (perform_wf e a (proj1 Hplain) Hproper)
      as (a1 & out1 & Hrun1 & _ & Hundo1 & Hredo1).
    rewrite Hrun1 in Hrun. injection Hrun as <- <-.
    unfold plain_history. rewrite Hredo1. split; [| constructor].
    pose proof (plain_snapshot a Hplain) as Hsnap.
    destruct Hundo1 as [-> | ->]; apply Forall_app; split; try assumption;
      repeat constructor; assumption.
  - destruct (copyText_plain pos len a a' out Hplain Hpos Hlen Hsum Hrun)
      as [Hplain' Hct].
    split; [exact Hplain' |]. unfold plain_history. rewrite Hct. exact Hhist.
  - exact (undo_plain a a' out Hplain Hhist Hrun).
  - exact (redo_plain a a' out Hplain Hhist Hrun).
Qed.

(** *** Objects to try the statements on *)

Lemma reachable_hello : reachable hello.
Proof.
  apply (reachable_edit (Append (text_of "hello")) new hello []).
  - exact reachable_new.
  - vm_compute. reflexivity.
  - exact append_hello.
Qed.

Lemma reachable_hello_undone : reachable hello_undone.
Proof.
  apply (reachable_undo hello hello_undone []).
  - exact reachable_hello.
  - exact undo_hello.
Qed.

Lemma terminated_hello : terminated hello.
Proof. reflexivity. Qed.



(** ** [append] *)

(** X2. [append] puts the characters of its argument, up to the first
    terminator in it, behind the text and the terminator behind them;
    the clipboard is not touched, and what was there to redo is gone. *)
Theorem append_appends (text : list byte) (a : t) :
  wf a -> size a + strlen text < 2 ^ 63 ->
  ∃ a', append text a = Done (a', [])
    ∧ content a' = content a ++ (Some <$> cstring text)
    ∧ size a' = size a + Z.of_nat (length (cstring text))
    ∧ terminated a'
    ∧ size a' < capacity a'
    ∧ clipboard a' = clipboard a
    ∧ CareTaker.undoStack (careTaker a')
      = CareTaker.undoStack (careTaker a) ++ [snapshot a]
    ∧ CareTaker.redoStack (careTaker a') = [].
Proof.
  intros Hwf Hsum.
  destruct (append_returns text a Hwf (or_introl Hsum))
    as (a' & Hrun & Hct & Hclip & Hsize & _ & Hfit & _ & Hcontent & Hterm & _).
  exists a'. rewrite Hct. split_and!; try assumption; reflexivity.
Qed.

Lemma append_appends_witness :
  wf hello ∧ size hello + strlen (text_of " world") < 2 ^ 63
  ∧ ∃ a', append (text_of " world") hello = Done (a', [])
      ∧ content a' = (Some <$> text_of "hello world")
      ∧ terminated a'.
Proof.
  assert (Hsum : size hello + strlen (text_of " world") < 2 ^ 63)
    by (vm_compute; reflexivity).
  split; [exact wf_hello |]. split; [exact Hsum |].
  destruct (append_appends (text_of " world") hello wf_hello Hsum)
    as (a' & Hrun & Hcontent & _ & Hterm & _).
  exists a'. split_and!; assumption.
Defined.

(** The capacity the loop of [append] ends with is the old one doubled
    some number of times, and when it doubled at all it is at most
    twice the length it made room for. *)
Lemma append_grow_capacity (fuel : nat) (len : Z) (a a' : t) :
  append_grow fuel len a = Done a' ->
  0 <= len -> 0 <= size a -> size a + len < 2 ^ 63 -> 0 < capacity a ->
  ∃ k : nat, capacity a' = capacity a * 2 ^ Z.of_nat k
    ∧ (capacity a' = capacity a ∨ capacity a' <= 2 * (size a + len)).
Proof.
  revert a. induction fuel as [| fuel IH]; intros a Hrun Hlen Hsize Hsum Hcap;
    cbn [append_grow] in Hrun; rewrite size_add_small in Hrun by lia;
    destruct (size a + len >=? capacity a) eqn:Hgeb; try discriminate.
  - injection Hrun as <-. exists 0%nat. split; [cbn; lia | left; reflexivity].
  - apply geb_true in Hgeb. rewrite size_mul_small in Hrun by lia.
    destruct (resize (capacity a * 2) a) as [a1 |] eqn:Hresize;
      [| discriminate].
    cbn [defined obind] in Hrun.
    apply resize_inv in Hresize as (Hcap1 & Hsize1 & _).
    destruct (IH a1 Hrun Hlen) as (k & Hk & Hbound); try lia.
    exists (S k). rewrite Hk, Hcap1, Nat2Z.inj_succ, Z.pow_succ_r by lia.
    split; [lia |]. right. lia.
  - injection Hrun as <-. exists 0%nat. split; [cbn; lia | left; reflexivity].
Qed.

(** X3. The growth policy of [append]: the capacity stays when text and
    terminator fit, and otherwise it is doubled until they do -- so it
    ends as the old capacity times a power of two, and never above
    twice the new length. *)
Theorem append_doubles_capacity (text : list byte) (a : t) :
  wf a -> size a + strlen text < 2 ^ 63 ->
  ∃ a' (k : nat), append text a = Done (a', [])
    ∧ capacity a' = capacity a * 2 ^ Z.of_nat k
    ∧ size a' < capacity a'
    ∧ (size a + strlen text < capacity a -> capacity a' = capacity a)
    ∧ (capacity a <= size a + strlen text -> capacity a' <= 2 * size a').
Proof.
  intros Hwf Hsum. pose proof (wf_storable a Hwf) as Hok.
  pose proof (strlen_nonneg text) as Hlen.
  destruct (append_returns text a Hwf (or_introl Hsum))
    as (a' & Hrun & _ & _ & Hsize & _ & Hfit & _ & _ & _ & Hsame).
  assert (Hgrow : ∃ a2, append_grow append_fuel (strlen text) (recorded a)
                        = Done a2 ∧ capacity a' = capacity a2).
  { pose proof Hrun as Hrun'. unfold append in Hrun'.
    rewrite saveState_storable in Hrun' by exact Hok.
    cbn [defined obind] in Hrun'.
    destruct (append_grow append_fuel (strlen text) (recorded a))
      as [a2 | |]; try discriminate.
    cbn [obind] in Hrun'.
    destruct (store (data a2) (size a2) (strcpy_image text)) as [d |];
      [| discriminate].
    injection Hrun' as <-. exists a2. split; reflexivity. }
  destruct Hgrow as (a2 & Hgrow & Hcap2).
  destruct Hwf as (Hsize0 & _).
  apply append_grow_capacity in Hgrow as (k & Hk & Hbound);
    cbn [recorded set_careTaker size capacity] in *; try lia.
  exists a', k. rewrite Hcap2, Hsize.
  split_and!; try assumption; lia.
Qed.

Lemma append_doubles_capacity_witness :
  wf hello ∧ size hello + strlen (text_of "0123456789abcdefghij") < 2 ^ 63
  ∧ ∃ a', append (text_of "0123456789abcdefghij") hello = Done (a', [])
      ∧ capacity a' = 40.
Proof.
  assert (Hsum : size hello + strlen (text_of "0123456789abcdefghij") < 2 ^ 63)
    by (vm_compute; reflexivity).
  split; [exact wf_hello |]. split; [exact Hsum |].
  destruct (append_doubles_capacity (text_of "0123456789abcdefghij") hello
              wf_hello Hsum) as (a' & k & Hrun & _).
  exists a'. split; [exact Hrun |].
  vm_compute in Hrun. injection Hrun as <-. reflexivity.
Defined.

(** ** [insertAndReplace] *)

(** The capacity [insertAndReplace] returns with. *)
Lemma insertAndReplace_capacity (pos : Z) (substring : list byte)
    (replaceLen : Z) (a a' : t) (out : list Message) :
  wf a -> 0 <= replaceLen <= size a -> size a + strlen substring < 2 ^ 63 ->
  insertAndReplace pos substring replaceLen a = Done (a', out) ->
  capacity a'
  = (if decide (capacity a <= size a + strlen substring - replaceLen)
     then 2 * (size a + strlen substring - replaceLen)
     else capacity a).
Proof.
  intros Hwf Hrl Hsum Hrun. pose proof (wf_storable a Hwf) as Hok.
  destruct Hwf as (Hsize & Hcap & _).
  pose proof (strlen_nonneg substring) as Hlen.
  unfold insertAndReplace in Hrun.
  rewrite saveState_storable in Hrun by exact Hok.
  cbn [defined obind] in Hrun. cbv zeta in Hrun.
  change (size (recorded a)) with (size a) in Hrun.
  change (capacity (recorded a)) with (capacity a) in Hrun.
  rewrite (size_add_small (size a)) in Hrun by lia.
  rewrite (size_sub_small (size a + strlen substring)) in Hrun by lia.
  set (newLen := size a + strlen substring - replaceLen) in *.
  assert (Hroom : ∀ a1,
    (if newLen >=? capacity a
     then resize (newLen * 2)%size (recorded a) else Some (recorded a))
    = Some a1 ->
    capacity a1 = (if decide (capacity a <= newLen)
                   then 2 * newLen else capacity a)).
  { intros a1. destruct (newLen >=? capacity a) eqn:Hgeb.
    - apply geb_true in Hgeb. rewrite decide_True by exact Hgeb.
      rewrite size_mul_small by lia.
      intros (Hcap1 & _)%resize_inv. lia.
    - apply geb_false in Hgeb. rewrite decide_False by lia.
      intros [= <-]. reflexivity. }
  destruct (if newLen >=? capacity a then _ else _) as [a1 |];
    [| discriminate].
  specialize (Hroom a1 eq_refl). cbn [defined obind] in Hrun.
  destruct (memmove _ _ _ _) as [d |]; [| discriminate].
  cbn [defined obind] in Hrun.
  destruct (memcpy _ _ _ _ _) as [d' |]; [| discriminate].
  injection Hrun as <- _.
  cbn [set_size set_data capacity]. exact Hroom.
Qed.

(** X4. [insertAndReplace] takes [replaceLen] characters out at [pos] and
    puts the characters of its argument there: one call inserts
    ([replaceLen] 0), overwrites or splices.  The capacity stays when
    the new text and its terminator fit and becomes exactly twice the
    new length otherwise; the cell behind the text keeps what it held
    only when the capacity stayed. *)
Theorem insertAndReplace_splices (pos : Z) (substring : list byte)
    (replaceLen : Z) (a : t) :
  wf a -> 0 <= pos -> 0 <= replaceLen -> pos + replaceLen <= size a ->
  size a + strlen substring < 2 ^ 63 ->
  ∃ a', insertAndReplace pos substring replaceLen a = Done (a', [])
    ∧ content a'
      = take (Z.to_nat pos) (content a) ++ (Some <$> cstring substring)
          ++ drop (Z.to_nat (pos + replaceLen)) (content a)
    ∧ size a' = size a + strlen substring - replaceLen
    ∧ capacity a' = (if decide (capacity a <= size a') then 2 * size a'
                     else capacity a)
    ∧ terminator a' = (if decide (capacity a <= size a') then Some None
                       else terminator a)
    ∧ clipboard a' = clipboard a
    ∧ CareTaker.undoStack (careTaker a')
      = CareTaker.undoStack (careTaker a) ++ [snapshot a]
    ∧ CareTaker.redoStack (careTaker a') = [].
Proof.
  intros Hwf Hpos Hrl Hspan Hsum.
  destruct (insertAndReplace_returns pos substring replaceLen a
              Hwf Hpos Hrl Hspan Hsum)
    as (a' & Hrun & Hct & Hclip & Hsize & _ & _ & _ & Hcontent & Hterm & _).
  pose proof (insertAndReplace_capacity pos substring replaceLen a a' []
                Hwf ltac:(lia) Hsum Hrun) as Hcap.
  exists a'. rewrite Hct, Hsize in *.
  split_and!; try assumption; reflexivity.
Qed.

Lemma insertAndReplace_splices_witness :
  wf hello ∧ 0 <= 1 ∧ 0 <= 3 ∧ 1 + 3 <= size hello
  ∧ size hello + strlen (text_of "ipp") < 2 ^ 63
  ∧ ∃ a', insertAndReplace 1 (text_of "ipp") 3 hello = Done (a', [])
      ∧ content a' = (Some <$> text_of "hippo")
      ∧ capacity a' = 10.
Proof.
  assert (Hspan : 1 + 3 <= size hello) by (vm_compute; discriminate).
  assert (Hsum : size hello + strlen (text_of "ipp") < 2 ^ 63)
    by (vm_compute; reflexivity).
  split; [exact wf_hello |]. split; [lia |]. split; [lia |].
  split; [exact Hspan |]. split; [exact Hsum |].
  destruct (insertAndReplace_splices 1 (text_of "ipp") 3 hello wf_hello
              ltac:(lia) ltac:(lia) Hspan Hsum)
    as (a' & Hrun & Hcontent & _ & Hcap & _).
  exists a'. split; [exact Hrun |]. split; [exact Hcontent |].
  vm_compute in Hrun. injection Hrun as <-. reflexivity.
Defined.

(** ** [deleteText] and [copyText] *)

(** X5. [deleteText] on a valid range removes exactly the span: the text
    before and the text behind it remain, the size drops by [len], the
    terminator is written, capacity and clipboard stay, and one memento
    of the state before is recorded. *)
Theorem deleteText_removes_span (pos len : Z) (a : t) :
  wf a -> valid_range pos len a ->
  ∃ a', deleteText pos len a = Done (a', [])
    ∧ content a' = take (Z.to_nat pos) (content a)
                     ++ drop (Z.to_nat (pos + len)) (content a)
    ∧ size a' = size a - len
    ∧ capacity a' = capacity a
    ∧ terminated a'
    ∧ clipboard a' = clipboard a
    ∧ CareTaker.undoStack (careTaker a')
      = CareTaker.undoStack (careTaker a) ++ [snapshot a]
    ∧ CareTaker.redoStack (careTaker a') = [].
Proof.
  intros Hwf Hrange. pose proof (wf_allocated a Hwf) as Halloc.
  eexists. split; [apply deleteText_returns; assumption |].
  destruct (deleteText_text pos len a _ [] Halloc Hrange
              (deleteText_returns pos len a Halloc Hrange))
    as (_ & Hcontent & Hsize & Hcap & Hclip & Hct & Hterm).
  rewrite Hct. split_and!; try assumption; reflexivity.
Qed.

Lemma deleteText_removes_span_witness :
  wf hello ∧ valid_range 1 3 hello
  ∧ ∃ a', deleteText 1 3 hello = Done (a', [])
      ∧ content a' = (Some <$> text_of "ho")
      ∧ terminated a'.
Proof.
  split; [exact wf_hello |]. split; [exact valid_range_hello |].
  destruct (deleteText_removes_span 1 3 hello wf_hello valid_range_hello)
    as (a' & Hrun & Hcontent & _ & _ & Hterm & _).
  exists a'. split_and!; assumption.
Defined.

(** X6. [copyText] on a valid range changes the clipboard and nothing
    else -- not the buffer and not the history: the clipboard becomes
    the [len] characters of the text from [pos] on, whatever it held. *)
Theorem copyText_only_sets_clipboard (pos len : Z) (a : t) :
  wf a -> valid_range pos len a ->
  ∃ span, copyText pos len a = Done (set_clipboard span a, [])
    ∧ span = take (Z.to_nat len) (drop (Z.to_nat pos) (content a))
    ∧ Z.of_nat (length span) = len.
Proof.
  intros Hwf Hrange. pose proof (wf_allocated a Hwf) as Halloc.
  eexists. split; [apply copyText_returns; assumption |].
  split; [apply copied_span; exact Hrange |].
  destruct Halloc as (Hsize & Hcap & Halloc).
  destruct Hrange as (Hpos & Hlen & Hsum). lengths.
Qed.

Lemma copyText_only_sets_clipboard_witness :
  wf hello ∧ valid_range 1 3 hello
  ∧ copyText 1 3 hello = Done (set_clipboard (Some <$> text_of "ell") hello, []).
Proof.
  split; [exact wf_hello |]. split; [exact valid_range_hello |].
  destruct (copyText_only_sets_clipboard 1 3 hello wf_hello valid_range_hello)
    as (span & Hrun & -> & _).
  exact Hrun.
Defined.

(** ** Clipboard round trips *)

(** [pasteText] at a position in the text is [insertAndReplace] of what
    the clipboard reads as, on the object [pasteText] has recorded. *)
Lemma pasteText_delegates (pos : Z) (text : list byte) (a : t) :
  storable a -> pos <= size a -> c_str (clipboard a) = Some text ->
  pasteText pos a = insertAndReplace pos text 0 (recorded a).
Proof.
  intros Hok Hpos Hread. unfold pasteText.
  rewrite saveState_storable by exact Hok. cbn [defined obind].
  change (size (recorded a)) with (size a).
  change (clipboard (recorded a)) with (clipboard a).
  apply gtb_false in Hpos. rewrite Hpos, Hread. reflexivity.
Qed.

(** What [pasteText] returns with, when the clipboard holds text. *)
Lemma pasteText_effect (pos : Z) (text : list byte) (a : t) :
  wf a -> 0 <= pos <= size a -> clipboard a = (Some <$> text) ->
  cstring text = text -> size a + Z.of_nat (length text) < 2 ^ 63 ->
  ∃ a', pasteText pos a = Done (a', [])
    ∧ content a' = take (Z.to_nat pos) (content a) ++ (Some <$> text)
                     ++ drop (Z.to_nat pos) (content a)
    ∧ size a' = size a + Z.of_nat (length text)
    ∧ capacity a' = (if decide (capacity a <= size a') then 2 * size a'
                     else capacity a)
    ∧ terminator a' = (if decide (capacity a <= size a') then Some None
                       else terminator a)
    ∧ clipboard a' = clipboard a
    ∧ CareTaker.undoStack (careTaker a')
      = CareTaker.undoStack (careTaker a) ++ [snapshot a; snapshot a]
    ∧ CareTaker.redoStack (careTaker a') = [].
Proof.
  intros Hwf Hpos Hclip Hfix Hsum.
  assert (Hstrlen : strlen text = Z.of_nat (length text))
    by (unfold strlen; rewrite Hfix; reflexivity).
  assert (Hread : c_str (clipboard a) = Some text)
    by (rewrite Hclip; apply c_str_text; exact Hfix).
  rewrite (pasteText_delegates pos text a) by auto with buffer || lia.
  pose proof (wf_recorded a Hwf) as Hwf'.
  destruct (insertAndReplace_returns pos text 0 (recorded a))
    as (a' & Hrun & Hct & Hclip' & Hsize & _ & _ & _ & Hcontent & Hterm & _);
    cbn [recorded set_careTaker size]; try lia; try exact Hwf'.
  pose proof (insertAndReplace_capacity pos text 0 (recorded a) a' [] Hwf')
    as Hcap.
  change (size (recorded a)) with (size a) in *.
  change (capacity (recorded a)) with (capacity a) in *.
  change (content (recorded a)) with (content a) in *.
  change (terminator (recorded a)) with (terminator a) in *.
  change (clipboard (recorded a)) with (clipboard a) in *.
  destruct Hwf as (Hsize0 & _).
  specialize (Hcap ltac:(lia) ltac:(lia) Hrun).
  rewrite Hstrlen, Z.sub_0_r in *. rewrite Z.add_0_r, Hfix in Hcontent.
  exists a'. rewrite Hct, Hsize in *.
  split_and!; try assumption; try reflexivity.
  cbn. rewrite <- app_assoc. reflexivity.
Qed.

Lemma wf_set_clipboard (s : list cell) (a : t) :
  wf a -> Forall is_Some s -> wf (set_clipboard s a).
Proof.
  intros (Hsize & Hcap & Halloc & Hcontent & _) Hs.
  unfold wf, content in *. cbn [set_clipboard data size capacity clipboard].
  split_and!; try assumption; lia.
Qed.

(** X7. Copying a span and pasting it at [q] gives the buffer that
    inserting the span's characters at [q] gives -- text, size,
    capacity and the cell behind the text -- with the span left on the
    clipboard and one more memento on the undo stack. *)
Theorem copy_then_paste_inserts (p l q : Z) (a : t) :
  plain_state a -> valid_range p l a -> 0 <= q <= size a ->
  size a + l < 2 ^ 63 ->
  ∃ text pasted inserted,
    take (Z.to_nat l) (drop (Z.to_nat p) (content a)) = (Some <$> text)
    ∧ andThen (copyText p l) (pasteText q) a = Done (pasted, [])
    ∧ insertAndReplace q text 0 a = Done (inserted, [])
    ∧ buffer pasted = buffer inserted
    ∧ terminator pasted = terminator inserted
    ∧ clipboard pasted = (Some <$> text)
    ∧ CareTaker.undoStack (careTaker pasted)
      = CareTaker.undoStack (careTaker inserted) ++ [snapshot a].
Proof.
  intros (Hwf & Hcontent & _) Hrange Hq Hsum.
  pose proof (wf_allocated a Hwf) as Halloc.
  set (span := take (Z.to_nat l) (drop (Z.to_nat p) (content a))).
  assert (Hspan : plain span) by (subst span; auto with buffer).
  destruct (plain_text span Hspan) as (text & Htext & Hfix).
  assert (Hlen : Z.of_nat (length text) = l).
  { apply (f_equal length) in Htext. subst span. unfold content in Htext.
    destruct Halloc as (Hsize & Hcap & Halloc).
    destruct Hrange as (Hpos & Hl & Hend).
    rewrite length_fmap, length_take, length_drop, length_take in Htext. lia. }
  assert (Hstrlen : strlen text = l)
    by (unfold strlen; rewrite Hfix; exact Hlen).
  set (b := set_clipboard span a).
  assert (Hwfb : wf b)
    by (apply wf_set_clipboard; [exact Hwf | apply plain_written; exact Hspan]).
  destruct (pasteText_effect q text b Hwfb Hq Htext Hfix)
    as (pasted & Hpaste & Hc1 & Hs1 & Hcap1 & Ht1 & Hclip1 & Hu1 & _);
    [cbn [b set_clipboard size]; lia |].
  destruct (insertAndReplace_returns q text 0 a Hwf)
    as (inserted & Hins & Hct2 & _ & Hs2 & _ & _ & _ & Hc2 & Ht2 & _);
    try lia.
  pose proof (insertAndReplace_capacity q text 0 a inserted [] Hwf
                ltac:(destruct Halloc; lia) ltac:(lia) Hins) as Hcap2.
  exists text, pasted, inserted. split; [exact Htext |]. split.
  { unfold andThen. rewrite (copyText_returns p l a Halloc Hrange).
    cbn [obind fst snd]. rewrite (copied_span p l a Hrange).
    fold span b. rewrite Hpaste. reflexivity. }
  split; [exact Hins |].
  change (size b) with (size a) in *. change (capacity b) with (capacity a) in *.
  change (content b) with (content a) in *.
  change (terminator b) with (terminator a) in *.
  change (snapshot b) with (snapshot a) in *.
  change (careTaker b) with (careTaker a) in *.
  rewrite Hstrlen, Hfix, Z.sub_0_r, ?Z.add_0_r in *. rewrite Hlen in *.
  split_and!.
  - unfold buffer. rewrite Hc1, Hc2, Hcap1, Hcap2, Hs1, Hs2. reflexivity.
  - rewrite Ht1, Ht2, Hs1, Hs2. reflexivity.
  - rewrite Hclip1. exact Htext.
  - rewrite Hu1, Hct2. cbn. rewrite <- app_assoc. reflexivity.
Qed.

Lemma plain_state_hello : plain_state hello.
Proof. exact (proj1 (reachable_plain hello reachable_hello)). Qed.

Lemma copy_then_paste_inserts_witness :
  plain_state hello ∧ valid_range 1 3 hello ∧ 0 <= 5 <= size hello
  ∧ size hello + 3 < 2 ^ 63
  ∧ ∃ text pasted inserted,
      (Some <$> text_of "ell") = (Some <$> text)
      ∧ andThen (copyText 1 3) (pasteText 5) hello = Done (pasted, [])
      ∧ insertAndReplace 5 text 0 hello = Done (inserted, [])
      ∧ buffer pasted = buffer inserted.
Proof.
  assert (Hq : 0 <= 5 <= size hello) by (cbn; lia).
  assert (Hsum : size hello + 3 < 2 ^ 63) by (cbn; lia).
  split; [exact plain_state_hello |]. split; [exact valid_range_hello |].
  split; [exact Hq |]. split; [exact Hsum |].
  destruct (copy_then_paste_inserts 1 3 5 hello plain_state_hello
              valid_range_hello Hq Hsum)
    as (text & pasted & inserted & Htext & Hpaste & Hins & Hbuffer & _).
  exists text, pasted, inserted.
  split; [exact Htext |]. split; [exact Hpaste |].
  split; [exact Hins | exact Hbuffer].
Defined.

(** X8. Cutting a span and pasting the clipboard back where it was
    gives the text, size and capacity of before, terminated; the span
    stays on the clipboard and the undo stack has grown by four
    mementos, two for the cut and two for the paste. *)
Theorem cut_then_paste_back (p l : Z) (a : t) :
  plain_state a -> valid_range p l a -> size a < 2 ^ 63 ->
  ∃ a', andThen (cutText p l) (pasteText p) a = Done (a', [])
    ∧ content a' = content a
    ∧ size a' = size a
    ∧ capacity a' = capacity a
    ∧ terminated a'
    ∧ clipboard a' = take (Z.to_nat l) (drop (Z.to_nat p) (content a))
    ∧ length (CareTaker.undoStack (careTaker a'))
      = (length (CareTaker.undoStack (careTaker a)) + 4)%nat.
Proof.
  intros Hplain Hrange Hhalf.
  pose proof Hplain as (Hwf & Hcontent & _).
  pose proof (wf_allocated a Hwf) as Halloc.
  pose proof (cutText_returns p l a Halloc Hrange) as Hcut.
  set (b := set_data _ _) in Hcut.
  destruct (cutText_text p l a b [] Halloc Hrange Hcut)
    as (_ & Hcb & Hsb & Hcapb & Hclipb & Htermb).
  assert (Hplainb : plain_state b).
  { apply (perform_plain (CutText p l) a b [] Hplain); [| exact Hcut].
    destruct Halloc as (Hsize & Hcap & _).
    destruct Hrange as (Hp & Hl & Hend). cbn [proper]. lia. }
  destruct Hplainb as (Hwfb & _ & Hspan).
  destruct (plain_text _ Hspan) as (text & Htext & Hfix).
  assert (Hlen : Z.of_nat (length text) = l).
  { apply (f_equal length) in Htext. rewrite Hclipb in Htext.
    unfold content in Htext.
    destruct Halloc as (Hsize & Hcap & Halloc).
    destruct Hrange as (Hp & Hl & Hend).
    rewrite length_fmap, length_take, length_drop, length_take in Htext. lia. }
  destruct Halloc as (Hsize & Hcap & Halloc).
  destruct Hrange as (Hp & Hl & Hend).
  destruct (pasteText_effect p text b Hwfb)
    as (a' & Hpaste & Hc & Hs & Hcap' & Ht & Hclip & Hu & _);
    try assumption; try lia.
  exists a'. split.
  { unfold andThen. rewrite Hcut. cbn [obind fst snd]. rewrite Hpaste.
    reflexivity. }
  rewrite Hs, Hsb, Hlen, Hcapb in *.
  rewrite decide_False in Hcap' by lia. rewrite decide_False in Ht by lia.
  split_and!; try assumption; try lia.
  - rewrite Hc, Hcb, <- Htext, Hclipb.
    rewrite take_app_length' by (unfold content; lengths).
    rewrite drop_app_length' by (unfold content; lengths).
    rewrite Z2Nat.inj_add, <- drop_drop by lia.
    rewrite (take_drop (Z.to_nat l)). apply take_drop.
  - unfold terminated. rewrite Ht. exact Htermb.
  - rewrite Hclip. exact Hclipb.
  - rewrite Hu, length_app. subst b. cbn. rewrite !length_app. cbn. lia.
Qed.

Lemma cut_then_paste_back_witness :
  plain_state hello ∧ valid_range 1 3 hello ∧ size hello < 2 ^ 63
  ∧ ∃ a', andThen (cutText 1 3) (pasteText 1) hello = Done (a', [])
      ∧ content a' = content hello
      ∧ clipboard a' = (Some <$> text_of "ell").
Proof.
  assert (Hhalf : size hello < 2 ^ 63) by (cbn; lia).
  split; [exact plain_state_hello |]. split; [exact valid_range_hello |].
  split; [exact Hhalf |].
  destruct (cut_then_paste_back 1 3 hello plain_state_hello
              valid_range_hello Hhalf)
    as (a' & Hrun & Hcontent & _ & _ & _ & Hclip & _).
  exists a'. split_and!; assumption.
Defined.

(** ** [undo] and [redo] *)

(** X9. One [undo] after one editing call: when the edited text is no
    longer than the capacity of before, the text, size and capacity of
    before are back and terminated, the clipboard is left as the edit
    left it and the edited state is what [redo] holds; when it is
    longer, [resize] is asked to copy it into an array of the old
    capacity and the call has no defined result. *)
Theorem undo_after_one_edit (e : Edit) (a : t) :
  wf a -> proper e a ->
  ∃ a' out, perform e a = Done (a', out)
    ∧ (size a' <= capacity a ->
       ∃ a'', undo a' = Done (a'', [])
         ∧ content a'' = content a ∧ size a'' = size a
         ∧ capacity a'' = capacity a ∧ terminated a''
         ∧ clipboard a'' = clipboard a'
         ∧ CareTaker.redoStack (careTaker a'') = [snapshot a'])
    ∧ (capacity a < size a' -> undo a' = Fault).
Proof.
  intros Hwf Hproper. pose proof (wf_allocated a Hwf) as Halloc.
  destruct (perform_returns e a Hwf Hproper)
    as (a' & out & rest & Hrun & Hundo & Hredo & Halloc').
  exists a', out. split; [exact Hrun |]. split.
  - intros Hfits.
    destruct (undo_returns a a' rest Halloc Halloc' Hundo Hfits)
      as (a'' & Hback & Hcontent & Hsize & Hcap & Hterm & _ & Hredo' & Hclip).
    exists a''. rewrite Hredo' , Hredo.
    split_and!; try assumption; reflexivity.
  - intros Hover.
    apply (undo_shrinking_faults a' rest (snapshot a) Halloc' Hundo).
    destruct Halloc as (Hsize & _). cbn [snapshot savedCapacity]. lia.
Qed.

Lemma undo_after_one_edit_witness :
  wf hello ∧ proper (DeleteText 1 3) hello
  ∧ ∃ a' a'', deleteText 1 3 hello = Done (a', [])
      ∧ undo a' = Done (a'', [])
      ∧ content a'' = content hello.
Proof.
  assert (Hproper : proper (DeleteText 1 3) hello) by (cbn; lia).
  split; [exact wf_hello |]. split; [exact Hproper |].
  destruct (undo_after_one_edit (DeleteText 1 3) hello wf_hello Hproper)
    as (a' & out & Hrun & Hfits & _).
  assert (Hout : out = [] ∧ size a' <= capacity hello).
  { cbn [perform] in Hrun. vm_compute in Hrun. injection Hrun as <- <-.
    split; [reflexivity | vm_compute; discriminate]. }
  destruct Hout as [-> Hsize].
  destruct (Hfits Hsize) as (a'' & Hback & Hcontent & _).
  exists a', a''. split_and!; assumption.
Defined.

Lemma snapshot_buffer (a b : t) : buffer a = buffer b -> snapshot a = snapshot b.
Proof.
  unfold buffer, snapshot, content. intros [= Hcontent Hsize Hcap].
  rewrite Hcontent, Hsize, Hcap. reflexivity.
Qed.

(** X10. [undo] followed by [redo] is a round trip: where both are
    defined -- the text in place fits the capacity the memento
    recorded, and the recorded text fits the capacity in place -- the
    object is back at its text, size and capacity, terminated, and both
    history stacks and the clipboard are exactly what they were. *)
Theorem undo_then_redo (a0 a : t) (rest : list Memento) :
  allocated a0 -> allocated a ->
  CareTaker.undoStack (careTaker a) = rest ++ [snapshot a0] ->
  size a <= capacity a0 -> size a0 <= capacity a ->
  ∃ a1 a2, undo a = Done (a1, []) ∧ redo a1 = Done (a2, [])
    ∧ buffer a1 = buffer a0
    ∧ buffer a2 = buffer a
    ∧ terminated a2
    ∧ careTaker a2 = careTaker a
    ∧ clipboard a2 = clipboard a.
Proof.
  intros Halloc0 Halloc Hstack Hfits Hback.
  pose proof (allocated_storable a Halloc) as Hok.
  set (c1 := {| CareTaker.undoStack := rest;
                CareTaker.redoStack :=
                  CareTaker.redoStack (careTaker a) ++ [snapshot a] |}).
  destruct (restore_snapshot a0 (set_careTaker c1 a) Halloc0 Halloc
              (or_intror Hfits))
    as (a1 & Hrun1 & Hcontent1 & Hsize1 & Hcap1 & _ & Hct1 & Hclip1 & Hlen1).
  assert (Hbuffer1 : buffer a1 = buffer a0)
    by (unfold buffer; rewrite Hcontent1, Hsize1, Hcap1; reflexivity).
  assert (Halloc1 : allocated a1).
  { destruct Halloc0 as (Hs0 & Hc0 & _). unfold allocated.
    rewrite Hlen1, Hsize1, Hcap1. lia. }
  set (c2 := {| CareTaker.undoStack := rest ++ [snapshot a1];
                CareTaker.redoStack := CareTaker.redoStack (careTaker a) |}).
  destruct (restore_snapshot a (set_careTaker c2 a1) Halloc Halloc1)
    as (a2 & Hrun2 & Hcontent2 & Hsize2 & Hcap2 & Hterm2 & Hct2 & Hclip2 & _).
  { right. cbn [set_careTaker size]. rewrite Hsize1. exact Hback. }
  exists a1, a2. split_and!.
  - rewrite (undo_pops a rest (snapshot a0) Hok Hstack). exact Hrun1.
  - rewrite (redo_pops a1 (CareTaker.redoStack (careTaker a)) (snapshot a)).
    + rewrite Hct1. exact Hrun2.
    + apply allocated_storable. exact Halloc1.
    + rewrite Hct1. reflexivity.
  - exact Hbuffer1.
  - unfold buffer. rewrite Hcontent2, Hsize2, Hcap2. reflexivity.
  - exact Hterm2.
  - rewrite Hct2. cbn [set_careTaker careTaker]. subst c2.
    rewrite (snapshot_buffer a1 a0 Hbuffer1), <- Hstack.
    destruct (careTaker a). reflexivity.
  - rewrite Hclip2. exact Hclip1.
Qed.

Lemma undo_then_redo_witness :
  allocated new ∧ allocated hello
  ∧ CareTaker.undoStack (careTaker hello) = [] ++ [snapshot new]
  ∧ size hello <= capacity new ∧ size new <= capacity hello
  ∧ ∃ a1 a2, undo hello = Done (a1, []) ∧ redo a1 = Done (a2, [])
      ∧ buffer a2 = buffer hello ∧ careTaker a2 = careTaker hello.
Proof.
  assert (Hfits : size hello <= capacity new) by (cbn; lia).
  assert (Hback : size new <= capacity hello) by (cbn; lia).
  pose proof (wf_allocated new wf_new) as Hnew.
  pose proof (wf_allocated hello wf_hello) as Hhello.
  split; [exact Hnew |]. split; [exact Hhello |]. split; [reflexivity |].
  split; [exact Hfits |]. split; [exact Hback |].
  destruct (undo_then_redo new hello [] Hnew Hhello eq_refl Hfits Hback)
    as (a1 & a2 & Hundo & Hredo & _ & Hbuffer & _ & Hct & _).
  exists a1, a2. split_and!; assumption.
Defined.

(** ** Arguments the calls do not check *)

Lemma wrap_shift (z : Z) : ∃ k, wrap z = z + k * 2 ^ 64.
Proof.
  exists (- (z / 2 ^ 64)). unfold wrap, SIZE_WIDTH.
  rewrite Z.mod_eq by lia. lia.
Qed.

Lemma wrap_once (z : Z) : 2 ^ 64 <= z < 2 ^ 65 -> wrap z = z - 2 ^ 64.
Proof.
  intros Hz. destruct (wrap_shift z) as (k & Hk).
  pose proof (wrap_range z). lia.
Qed.

Lemma load_beyond (buf : list cell) (off n : Z) :
  Z.of_nat (length buf) < off + n -> load buf off n = None.
Proof. intros Hoff. unfold load. apply decide_False. lia. Qed.

Lemma resize_length (n : Z) (a a1 : t) :
  resize n a = Some a1 -> length (data a1) = Z.to_nat n.
Proof.
  unfold resize, memcpy.
  destruct (load (data a) 0 (size a)) as [l |]; [| discriminate].
  cbn [mbind option_bind].
  destruct (store (new_char n) 0 l) as [d |] eqn:Hstore; [| discriminate].
  cbn [mbind option_bind]. intros [= <-]. cbn [set_capacity set_data data].
  apply store_length in Hstore. rewrite Hstore. apply length_new_char.
Qed.

(** X11. The range test adds [pos] and [len] as [size_t]: a range that
    starts in the text and whose end wraps around is accepted, and
    [deleteText] then has no defined result -- the source of its
    [memmove] lies beyond the array. *)
Theorem wrapped_range_is_accepted (pos len : Z) (a : t) :
  wf a -> 0 <= pos < size a -> 0 <= len < 2 ^ 64 -> 2 ^ 64 <= pos + len ->
  invalid_range pos len a = false
  ∧ deleteText pos len a = Fault.
Proof.
  intros Hwf Hpos Hlen Hwrap. pose proof (wf_storable a Hwf) as Hok.
  destruct Hwf as (Hsize & Hcap & Halloc & _).
  assert (Hacc : invalid_range pos len a = false).
  { unfold invalid_range, size_add. rewrite wrap_once by lia.
    apply orb_false_iff. split; [apply geb_false | apply gtb_false]; lia. }
  split; [exact Hacc |].
  unfold deleteText. rewrite saveState_storable by exact Hok.
  cbn [defined obind].
  change (invalid_range pos len (recorded a)) with (invalid_range pos len a).
  rewrite Hacc. unfold memmove.
  rewrite load_beyond; [reflexivity |].
  cbn [recorded set_careTaker data size].
  pose proof (wrap_range (wrap (size a - pos) - len)) as Hn.
  unfold size_sub. lia.
Qed.

Lemma wrapped_range_is_accepted_witness :
  wf hello ∧ 0 <= 1 < size hello ∧ 0 <= 2 ^ 64 - 1 < 2 ^ 64
  ∧ 2 ^ 64 <= 1 + (2 ^ 64 - 1)
  ∧ invalid_range 1 (2 ^ 64 - 1) hello = false
  ∧ deleteText 1 (2 ^ 64 - 1) hello = Fault.
Proof.
  assert (Hpos : 0 <= 1 < size hello) by (cbn; lia).
  assert (Hlen : 0 <= 2 ^ 64 - 1 < 2 ^ 64) by lia.
  assert (Hwrap : 2 ^ 64 <= 1 + (2 ^ 64 - 1)) by lia.
  split; [exact wf_hello |]. split; [exact Hpos |]. split; [exact Hlen |].
  split; [exact Hwrap |].
  destruct (wrapped_range_is_accepted 1 (2 ^ 64 - 1) hello wf_hello
              Hpos Hlen Hwrap) as (Hacc & Hdelete).
  split; assumption.
Defined.

(** X12. [insertAndReplace] does not check its position: when the span to
    replace ends more than one cell behind the text, the length it
    hands to [memmove] wraps around and the call has no defined
    result. *)
Theorem insertAndReplace_beyond_text (pos : Z) (substring : list byte)
    (replaceLen : Z) (a : t) :
  wf a -> 0 <= pos -> 0 <= replaceLen -> size a + 1 < pos + replaceLen ->
  insertAndReplace pos substring replaceLen a = Fault.
Proof.
  intros Hwf Hpos Hrl Hbeyond. pose proof (wf_storable a Hwf) as Hok.
  destruct Hwf as (Hsize & Hcap & Halloc & _).
  pose proof (strlen_nonneg substring) as Hlen.
  unfold insertAndReplace. rewrite saveState_storable by exact Hok.
  cbn [defined obind]. cbv zeta.
  assert (Hroom : ∀ n a1,
    (if n >=? capacity (recorded a)
     then resize (n * 2)%size (recorded a) else Some (recorded a)) = Some a1 ->
    size a1 = size a ∧ Z.of_nat (length (data a1)) < 2 ^ 64).
  { intros n a1. destruct (n >=? _).
    - intros Hresize.
      pose proof (resize_length _ _ _ Hresize) as Hlen1.
      apply resize_inv in Hresize as (_ & Hsize1 & _).
      pose proof (wrap_range (n * 2)) as Hrange. unfold size_mul in *.
      split; [exact Hsize1 | lia].
    - intros [= <-]. cbn [recorded set_careTaker size data]. lia. }
  destruct (if _ >=? _ then _ else _) as [a1 |] eqn:Hif; [| reflexivity].
  apply Hroom in Hif as (Hsize1 & Hlen1).
  cbn [defined obind]. unfold memmove.
  rewrite load_beyond; [reflexivity |].
  rewrite Hsize1. unfold size_add, size_sub.
  destruct (wrap_shift (size a - pos)) as (k1 & ->).
  destruct (wrap_shift (size a - pos + k1 * 2 ^ 64 - replaceLen))
    as (k2 & ->).
  destruct (wrap_shift (size a - pos + k1 * 2 ^ 64 - replaceLen
                        + k2 * 2 ^ 64 + 1)) as (k3 & Hk3).
  pose proof (wrap_range (size a - pos + k1 * 2 ^ 64 - replaceLen
                          + k2 * 2 ^ 64 + 1)) as Hrange.
  lia.
Qed.

Lemma insertAndReplace_beyond_text_witness :
  wf hello ∧ 0 <= 7 ∧ 0 <= 0 ∧ size hello + 1 < 7 + 0
  ∧ insertAndReplace 7 (text_of "X") 0 hello = Fault.
Proof.
  assert (Hbeyond : size hello + 1 < 7 + 0) by (cbn; lia).
  split; [exact wf_hello |]. split; [lia |]. split; [lia |].
  split; [exact Hbeyond |].
  exact (insertAndReplace_beyond_text 7 (text_of "X") 0 hello wf_hello
           ltac:(lia) ltac:(lia) Hbeyond).
Defined.

(** ** [getText] and its readers *)

(** X13. What a reader of [getText()] sees is the text: for a text
    without terminators followed by its terminator, reading the array
    as a C string gives exactly the [size] characters of the text. *)
Theorem getText_reads_the_text (a : t) :
  plain (content a) -> terminated a ->
  ∃ text, content a = (Some <$> text)
    ∧ read_cstring (getText a) = Some text.
Proof.
  intros Hplain Hterm.
  destruct (plain_text _ Hplain) as (text & Htext & Hfix).
  exists text. split; [exact Htext |].
  unfold getText. rewrite (data_split a (Some NUL) Hterm), Htext.
  apply read_cstring_terminated. exact Hfix.
Qed.

Lemma getText_reads_the_text_witness :
  plain (content hello) ∧ terminated hello
  ∧ read_cstring (getText hello) = Some (text_of "hello").
Proof.
  pose proof (proj1 (proj2 plain_state_hello)) as Hplain.
  split; [exact Hplain |]. split; [exact terminated_hello |].
  destruct (getText_reads_the_text hello Hplain terminated_hello)
    as (text & _ & Hread).
  rewrite Hread. vm_compute in Hread. symmetry. exact Hread.
Defined.

(** X14. After an [insertAndReplace] that had to grow the array, every
    reader of the text meets an indeterminate character behind it:
    printing [getText()], [findText] and [saveToFile] have no defined
    result. *)
Theorem readers_after_grown_insert (pos : Z) (substring search : list byte)
    (replaceLen : Z) (filename : string) (a : t) :
  wf a -> plain (content a) ->
  0 <= pos -> 0 <= replaceLen -> pos + replaceLen <= size a ->
  size a + strlen substring < 2 ^ 63 ->
  capacity a <= size a + strlen substring - replaceLen ->
  ∃ a', insertAndReplace pos substring replaceLen a = Done (a', [])
    ∧ read_cstring (getText a') = None
    ∧ findText search a' = Fault
    ∧ saveToFile filename true a' = Fault.
Proof.
  intros Hwf Hplain Hpos Hrl Hspan Hsum Hgrow.
  destruct (insertAndReplace_returns pos substring replaceLen a
              Hwf Hpos Hrl Hspan Hsum)
    as (a' & Hrun & _ & _ & Hsize & _ & _ & _ & Hcontent & Hterm & _).
  rewrite decide_True in Hterm by lia.
  assert (Hplain' : plain (content a'))
    by (rewrite Hcontent; auto 6 with buffer).
  destruct (plain_text _ Hplain') as (text & Htext & Hfix).
  assert (Hread : read_cstring (data a') = None).
  { rewrite (data_split a' None Hterm), Htext.
    apply read_cstring_gap. exact Hfix. }
  exists a'. split; [exact Hrun |]. split; [exact Hread |].
  unfold findText, saveToFile. rewrite Hread. split; reflexivity.
Qed.

Lemma readers_after_grown_insert_witness :
  wf new ∧ plain (content new)
  ∧ size new + strlen (text_of "0123456789") < 2 ^ 63
  ∧ capacity new <= size new + strlen (text_of "0123456789") - 0
  ∧ ∃ a', insertAndReplace 0 (text_of "0123456789") 0 new = Done (a', [])
      ∧ read_cstring (getText a') = None
      ∧ findText (text_of "0") a' = Fault.
Proof.
  pose proof (proj1 (proj2 plain_state_new)) as Hplain.
  assert (Hsum : size new + strlen (text_of "0123456789") < 2 ^ 63)
    by (vm_compute; reflexivity).
  assert (Hgrow : capacity new
                  <= size new + strlen (text_of "0123456789") - 0)
    by (vm_compute; discriminate).
  split; [exact wf_new |]. split; [exact Hplain |]. split; [exact Hsum |].
  split; [exact Hgrow |].
  destruct (readers_after_grown_insert 0 (text_of "0123456789")
              (text_of "0") 0 "out.txt" new wf_new Hplain
              ltac:(lia) ltac:(lia) ltac:(cbn; lia) Hsum Hgrow)
    as (a' & Hrun & Hread & Hfind & _).
  exists a'. split_and!; assumption.
Defined.

(** ** [findText] *)

Lemma starts_with_spec (needle hay : list byte) :
  starts_with needle hay = true <-> occurs_at needle hay 0.
Proof.
  unfold occurs_at. rewrite drop_0. revert hay.
  induction needle as [| x needle IH]; intros hay.
  - cbn. tauto.
  - destruct hay as [| y hay]; cbn [starts_with length take].
    + split; discriminate.
    + rewrite andb_true_iff, IH. split.
      * intros [Hxy ->]. apply Byte.byte_dec_bl in Hxy. subst. reflexivity.
      * intros [= -> Hrest]. split; [apply Byte.byte_dec_lb; reflexivity |].
        exact Hrest.
Qed.

Lemma occurs_at_tail (needle : list byte) (y : byte) (hay : list byte)
    (j : nat) :
  occurs_at needle (y :: hay) (S j) <-> occurs_at needle hay j.
Proof. unfold occurs_at. reflexivity. Qed.

Lemma occurs_at_inside (needle hay : list byte) (i : nat) :
  occurs_at needle hay i -> needle ≠ [] ->
  (i + length needle <= length hay)%nat.
Proof.
  unfold occurs_at. intros Hocc Hne.
  apply (f_equal length) in Hocc. rewrite length_take, length_drop in Hocc.
  destruct needle; [contradiction | cbn [length] in *; lia].
Qed.

(** [strstr] returns the first offset at which the needle occurs. *)
Lemma strstr_found (hay needle : list byte) (i : nat) :
  strstr hay needle = Some i ->
  occurs_at needle hay i ∧ (i <= length hay)%nat
  ∧ ∀ j, (j < i)%nat -> ¬ occurs_at needle hay j.
Proof.
  revert i. induction hay as [| y hay IH]; intros i; cbn [strstr];
    destruct (starts_with needle _) eqn:Hstart.
  - intros [= <-]. split; [apply starts_with_spec; exact Hstart |].
    split; [cbn; lia | intros j Hj; lia].
  - discriminate.
  - intros [= <-]. split; [apply starts_with_spec; exact Hstart |].
    split; [cbn; lia | intros j Hj; lia].
  - destruct (strstr hay needle) as [k |]; [| discriminate].
    intros [= <-]. destruct (IH k eq_refl) as (Hocc & Hlen & Hfirst).
    split; [apply occurs_at_tail; exact Hocc |].
    split; [cbn [length]; lia |].
    intros [| j] Hj.
    + intros Hzero. apply starts_with_spec in Hzero. congruence.
    + rewrite occurs_at_tail. apply Hfirst. lia.
Qed.

(** [strstr] returns a null pointer only when the needle occurs
    nowhere. *)
Lemma strstr_absent (hay needle : list byte) :
  strstr hay needle = None -> ∀ j, ¬ occurs_at needle hay j.
Proof.
  induction hay as [| y hay IH]; cbn [strstr];
    destruct (starts_with needle _) eqn:Hstart; try discriminate.
  - intros _ j Hocc.
    assert (Hzero : occurs_at needle [] 0).
    { unfold occurs_at in *. rewrite drop_nil in Hocc. exact Hocc. }
    apply starts_with_spec in Hzero. congruence.
  - destruct (strstr hay needle) as [k |]; [discriminate |].
    intros _ [| j].
    + intros Hzero. apply starts_with_spec in Hzero. congruence.
    + rewrite occurs_at_tail. apply IH. reflexivity.
Qed.

(** What [findText] computes on a terminated text. *)
Lemma findText_reads (search text : list byte) (a : t) :
  content a = (Some <$> text) -> cstring text = text -> terminated a ->
  findText search a
  = Done (match strstr text (cstring search) with
          | Some offset => Z.of_nat offset
          | None => NOT_FOUND
          end).
Proof.
  intros Htext Hfix Hterm. unfold findText.
  rewrite (data_split a (Some NUL) Hterm), Htext.
  rewrite read_cstring_terminated by exact Hfix. reflexivity.
Qed.

(** A text of [size] characters, as a list. *)
Lemma text_length (text : list byte) (a : t) :
  content a = (Some <$> text) -> terminated a -> 0 <= size a ->
  Z.of_nat (length text) = size a.
Proof.
  intros Htext Hterm Hsize.
  apply (f_equal length) in Htext. unfold content in Htext.
  rewrite length_fmap in Htext. rewrite <- Htext, length_take.
  unfold terminated, terminator in Hterm.
  apply lookup_lt_Some in Hterm. lia.
Qed.

(** X15. [findText] returns the offset of the first occurrence of the
    search string in the text, which then lies wholly inside the text,
    and [(size_t) -1] exactly when the search string occurs nowhere. *)
Theorem findText_finds_first (search : list byte) (a : t) :
  plain (content a) -> terminated a -> 0 <= size a ->
  ∃ text, content a = (Some <$> text)
    ∧ ((∃ i : nat, findText search a = Done (Z.of_nat i)
          ∧ occurs_at (cstring search) text i
          ∧ (∀ j, (j < i)%nat -> ¬ occurs_at (cstring search) text j)
          ∧ Z.of_nat i <= size a
          ∧ (cstring search ≠ [] -> Z.of_nat i + strlen search <= size a))
       ∨ (findText search a = Done NOT_FOUND
          ∧ ∀ j, ¬ occurs_at (cstring search) text j)).
Proof.
  intros Hplain Hterm Hsize.
  destruct (plain_text _ Hplain) as (text & Htext & Hfix).
  exists text. split; [exact Htext |].
  rewrite (findText_reads search text a Htext Hfix Hterm).
  pose proof (text_length text a Htext Hterm Hsize) as Hlen.
  destruct (strstr text (cstring search)) as [i |] eqn:Hfind.
  - left. exists i. destruct (strstr_found _ _ _ Hfind) as (Hocc & Hle & Hfirst).
    split_and!; try assumption; try reflexivity; try lia.
    intros Hne. pose proof (occurs_at_inside _ _ _ Hocc Hne).
    unfold strlen. lia.
  - right. split; [reflexivity | apply strstr_absent; exact Hfind].
Qed.

Lemma findText_finds_first_witness :
  plain (content hello) ∧ terminated hello ∧ 0 <= size hello
  ∧ findText (text_of "l") hello = Done 2
  ∧ occurs_at (text_of "l") (text_of "hello") 3.
Proof.
  pose proof (proj1 (proj2 plain_state_hello)) as Hplain.
  assert (Hsize : 0 <= size hello) by (cbn; lia).
  split; [exact Hplain |]. split; [exact terminated_hello |].
  split; [exact Hsize |].
  destruct (findText_finds_first (text_of "l") hello Hplain terminated_hello
              Hsize) as (text & _ & [(i & Hfind & _) | (Hfind & _)]).
  - rewrite Hfind. vm_compute in Hfind. split; [symmetry; exact Hfind |].
    reflexivity.
  - vm_compute in Hfind. discriminate Hfind.
Defined.

(** X16. Command 6 of the menu tells a match from a miss correctly: the
    [(size_t) -1] it compares with is no offset into an array of fewer
    than 2^64 characters, so it prints "Text not found." exactly when
    the search string occurs nowhere in the text, and otherwise the
    offset of its first occurrence. *)
Theorem menu_find_reports (search : list byte) (a : t) :
  allocated a -> plain (content a) -> terminated a ->
  ∃ text, content a = (Some <$> text)
    ∧ ((∃ i : nat, menu_find search a = Done (FoundTextAt (Z.of_nat i))
          ∧ occurs_at (cstring search) text i
          ∧ ∀ j, (j < i)%nat -> ¬ occurs_at (cstring search) text j)
       ∨ (menu_find search a = Done TextNotFound
          ∧ ∀ j, ¬ occurs_at (cstring search) text j)).
Proof.
  intros ((Hsize & Hlt) & Hcap & Hlen) Hplain Hterm.
  destruct (plain_text _ Hplain) as (text & Htext & Hfix).
  pose proof (text_length text a Htext Hterm Hsize) as Hlength.
  exists text. split; [exact Htext |]. unfold menu_find.
  rewrite (findText_reads search text a Htext Hfix Hterm). cbn [obind].
  destruct (strstr text (cstring search)) as [i |] eqn:Hfind.
  - left. exists i.
    destruct (strstr_found _ _ _ Hfind) as (Hocc & Hle & Hfirst).
    split; [| split; assumption].
    assert (Hne : (Z.of_nat i =? wrap (-1)) = false).
    { apply Z.eqb_neq. change (wrap (-1)) with (2 ^ 64 - 1). lia. }
    rewrite Hne. reflexivity.
  - right. split; [| apply strstr_absent; exact Hfind].
    unfold NOT_FOUND. rewrite Z.eqb_refl. reflexivity.
Qed.

Lemma menu_find_reports_witness :
  allocated hello ∧ plain (content hello) ∧ terminated hello
  ∧ menu_find (text_of "lo") hello = Done (FoundTextAt 3)
  ∧ menu_find (text_of "low") hello = Done TextNotFound.
Proof.
  pose proof (proj1 (proj2 plain_state_hello)) as Hplain.
  pose proof (wf_allocated hello wf_hello) as Halloc.
  split; [exact Halloc |]. split; [exact Hplain |].
  split; [exact terminated_hello |]. split.
  - destruct (menu_find_reports (text_of "lo") hello Halloc Hplain
                terminated_hello)
      as (text & _ & [(i & Hfind & _) | (Hfind & _)]).
    + rewrite Hfind. vm_compute in Hfind. symmetry. exact Hfind.
    + vm_compute in Hfind. discriminate Hfind.
  - destruct (menu_find_reports (text_of "low") hello Halloc Hplain
                terminated_hello)
      as (text & _ & [(i & Hfind & _) | (Hfind & _)]).
    + vm_compute in Hfind. discriminate Hfind.
    + exact Hfind.
Defined.

(** ** [saveToFile] and [loadFromFile] *)

Lemma length_cstring (text : list byte) :
  (length (cstring text) <= length text)%nat.
Proof.
  induction text as [| b text IH]; [reflexivity |].
  cbn [cstring]. destruct (Byte.eqb b NUL); cbn [length]; lia.
Qed.

(** The object [loadFromFile] leaves when the file could be opened:
    [strcpy] writes the C string of the file into an array of one cell
    more than the file has characters. *)
Lemma loadFromFile_opened (filename : string) (file : list byte) (a : t) :
  Z.of_nat (length file) + 1 < 2 ^ 64 ->
  loadFromFile filename (Some file) a
  = Done ({| data := strcpy_image file
                       ++ replicate (length file - length (cstring file)) None;
             size := Z.of_nat (length file);
             capacity := Z.of_nat (length file) + 1;
             careTaker := careTaker a;
             clipboard := clipboard a |},
          LoadedFrom filename).
Proof.
  intros Hfits. pose proof (length_cstring file) as Hle.
  pose proof (length_strcpy_image file) as Himage. unfold strlen in Himage.
  unfold loadFromFile. cbv zeta.
  rewrite size_add_small by lia.
  rewrite store_inside by (rewrite ?length_new_char; lia).
  cbn [defined obind]. change (Z.to_nat 0) with 0%nat.
  rewrite take_0. cbn [app Nat.add]. unfold new_char.
  rewrite drop_replicate.
  replace (Z.to_nat (Z.of_nat (length file) + 1) - length (strcpy_image file))%nat
    with (length file - length (cstring file))%nat by lia.
  reflexivity.
Qed.

(** Loading a file without a NUL character. *)
Lemma loadFromFile_loaded (filename : string) (file : list byte) (a : t) :
  cstring file = file -> Z.of_nat (length file) + 1 < 2 ^ 64 ->
  ∃ a', loadFromFile filename (Some file) a = Done (a', LoadedFrom filename)
    ∧ content a' = (Some <$> file)
    ∧ size a' = Z.of_nat (length file)
    ∧ capacity a' = size a' + 1
    ∧ Z.of_nat (length (data a')) = capacity a'
    ∧ terminated a'
    ∧ careTaker a' = careTaker a
    ∧ clipboard a' = clipboard a.
Proof.
  intros Hfix Hfits. eexists. split; [apply loadFromFile_opened; exact Hfits |].
  unfold content, terminated, terminator, strcpy_image.
  cbn [data size capacity careTaker clipboard].
  rewrite Hfix, Nat2Z.id, Nat.sub_diag. cbn [replicate].
  rewrite app_nil_r.
  assert (Hlen : length (Some <$> file : list cell) = length file)
    by apply length_fmap.
  split_and!; try reflexivity.
  - rewrite take_app_length'; [reflexivity | symmetry; exact Hlen].
  - rewrite length_app, length_fmap. cbn [length]. lia.
  - rewrite lookup_app_r by (rewrite length_fmap; lia).
    rewrite length_fmap, Nat.sub_diag. reflexivity.
Qed.

(** X17. [loadFromFile] on a file without a NUL character replaces the
    buffer by the file: the text is the file, the capacity is one more
    than its length and the terminator is written, so that the object
    keeps the representation the editing calls rely on.  It records
    nothing: both history stacks and the clipboard are as before, and
    the mementos of the text that was replaced stay in place. *)
Theorem loadFromFile_replaces_buffer (filename : string) (file : list byte)
    (a : t) :
  plain_state a ->
  cstring file = file -> Z.of_nat (length file) + 1 < 2 ^ 64 ->
  ∃ a', loadFromFile filename (Some file) a = Done (a', LoadedFrom filename)
    ∧ buffer a'
      = (Some <$> file, Z.of_nat (length file), Z.of_nat (length file) + 1)
    ∧ terminated a'
    ∧ careTaker a' = careTaker a
    ∧ clipboard a' = clipboard a
    ∧ plain_state a'.
Proof.
  intros (Hwf & _ & Hclipboard) Hfix Hfits.
  destruct (loadFromFile_loaded filename file a Hfix Hfits)
    as (a' & Hrun & Hcontent & Hsize & Hcap & Hlen & Hterm & Hct & Hclip).
  exists a'. split; [exact Hrun |]. split_and!; try assumption.
  - unfold buffer. rewrite Hcontent, Hcap, Hsize. reflexivity.
  - unfold plain_state, wf. rewrite Hcontent, Hclip.
    destruct Hwf as (_ & _ & _ & _ & Hwritten).
    pose proof (plain_fixed file Hfix) as Hplain.
    split_and!; try assumption; try lia.
    apply plain_written. exact Hplain.
Qed.

Lemma loadFromFile_replaces_buffer_witness :
  plain_state hello
  ∧ cstring (text_of "hi") = text_of "hi"
  ∧ Z.of_nat (length (text_of "hi")) + 1 < 2 ^ 64
  ∧ ∃ a', loadFromFile "notes.txt" (Some (text_of "hi")) hello
          = Done (a', LoadedFrom "notes.txt")
      ∧ buffer a' = (Some <$> text_of "hi", 2, 3)
      ∧ CareTaker.undoStack (careTaker a') = [snapshot new].
Proof.
  assert (Hfix : cstring (text_of "hi") = text_of "hi") by reflexivity.
  assert (Hfits : Z.of_nat (length (text_of "hi")) + 1 < 2 ^ 64)
    by (vm_compute; reflexivity).
  split; [exact plain_state_hello |].
  split; [exact Hfix |]. split; [exact Hfits |].
  destruct (loadFromFile_replaces_buffer "notes.txt" (text_of "hi") hello
              plain_state_hello Hfix Hfits)
    as (a' & Hrun & Hbuffer & _ & Hct & _).
  exists a'. split; [exact Hrun |]. split; [exact Hbuffer |].
  rewrite Hct. reflexivity.
Defined.

(** X18. [loadFromFile] on a file with a NUL character in it sets the
    length to the length of the whole file, while [strcpy] stops at the
    NUL: the characters of the text behind the NUL, and the place of the
    terminator, are indeterminate, and the readers see the part before
    the NUL only. *)
Theorem loadFromFile_embedded_nul (filename : string)
    (before behind : list byte) (a : t) :
  cstring before = before ->
  Z.of_nat (length (before ++ NUL :: behind)) + 1 < 2 ^ 64 ->
  ∃ a', loadFromFile filename (Some (before ++ NUL :: behind)) a
        = Done (a', LoadedFrom filename)
    ∧ size a' = Z.of_nat (length before) + 1 + Z.of_nat (length behind)
    ∧ content a'
      = (Some <$> before) ++ Some NUL :: replicate (length behind) None
    ∧ terminator a' = Some None
    ∧ read_cstring (getText a') = Some before.
Proof.
  intros Hfix Hfits.
  assert (Hcut : cstring (before ++ NUL :: behind) = before).
  { clear Hfits. induction before as [| b before IH]; [reflexivity |].
    cbn [cstring app] in *. destruct (Byte.eqb b NUL); [discriminate |].
    injection Hfix as Hfix. rewrite (IH Hfix). reflexivity. }
  eexists. split; [apply loadFromFile_opened; exact Hfits |].
  unfold content, terminator, getText, strcpy_image.
  cbn [data size capacity careTaker clipboard].
  rewrite Hcut, length_app. cbn [length].
  replace (length before + S (length behind) - length before)%nat
    with (S (length behind)) by lia.
  rewrite <- !app_assoc. cbn [app].
  split_and!.
  - lia.
  - rewrite Nat2Z.id.
    rewrite take_app_ge by (rewrite length_fmap; lia). rewrite length_fmap.
    replace (length before + S (length behind) - length before)%nat
      with (S (length behind)) by lia.
    cbn [take firstn]. rewrite take_replicate.
    replace (length behind `min` S (length behind))%nat
      with (length behind) by lia.
    reflexivity.
  - rewrite Nat2Z.id. rewrite lookup_app_r by (rewrite length_fmap; lia).
    rewrite length_fmap.
    replace (length before + S (length behind) - length before)%nat
      with (S (length behind)) by lia.
    cbn [lookup list_lookup]. apply lookup_replicate_2. lia.
  - apply read_cstring_terminated. exact Hfix.
Qed.

Lemma loadFromFile_embedded_nul_witness :
  cstring (text_of "ab") = text_of "ab"
  ∧ Z.of_nat (length (text_of "ab" ++ NUL :: text_of "cd")) + 1 < 2 ^ 64
  ∧ ∃ a', loadFromFile "notes.txt" (Some (text_of "ab" ++ NUL :: text_of "cd"))
            new
          = Done (a', LoadedFrom "notes.txt")
      ∧ size a' = 5
      ∧ read_cstring (getText a') = Some (text_of "ab").
Proof.
  assert (Hfix : cstring (text_of "ab") = text_of "ab") by reflexivity.
  assert (Hfits : Z.of_nat (length (text_of "ab" ++ NUL :: text_of "cd")) + 1
                  < 2 ^ 64) by (vm_compute; reflexivity).
  split; [exact Hfix |]. split; [exact Hfits |].
  destruct (loadFromFile_embedded_nul "notes.txt" (text_of "ab")
              (text_of "cd") new Hfix Hfits)
    as (a' & Hrun & Hsize & _ & _ & Hread).
  exists a'. split; [exact Hrun |]. split; [exact Hsize | exact Hread].
Defined.

(** X19. Saving and loading again keeps the text and its length, and
    leaves no room: the capacity becomes the length plus one, whatever
    it was, so that the next [append] of a character has to grow the
    array. *)
Theorem save_then_load (saved loaded : string) (a : t) :
  allocated a -> plain (content a) -> terminated a ->
  ∃ text a',
    saveToFile saved true a = Done (Some text, SavedTo saved)
    ∧ loadFromFile loaded (Some text) a = Done (a', LoadedFrom loaded)
    ∧ content a' = content a
    ∧ size a' = size a
    ∧ capacity a' = size a + 1
    ∧ terminated a'
    ∧ careTaker a' = careTaker a
    ∧ clipboard a' = clipboard a.
Proof.
  intros ((Hsize & Hlt) & Hcap & Hlen) Hplain Hterm.
  destruct (plain_text _ Hplain) as (text & Htext & Hfix).
  assert (Hlength : Z.of_nat (length text) = size a).
  { apply (f_equal length) in Htext. unfold content in Htext.
    rewrite length_fmap, length_take in Htext. lia. }
  destruct (loadFromFile_loaded loaded text a Hfix)
    as (a' & Hrun & Hcontent & Hsize' & Hcap' & _ & Hterm' & Hct & Hclip);
    [lia |].
  exists text, a'. split_and!; try assumption.
  - unfold saveToFile.
    rewrite (data_split a (Some NUL) Hterm), Htext.
    rewrite read_cstring_terminated by exact Hfix. reflexivity.
  - rewrite Hcontent, Htext. reflexivity.
  - lia.
  - lia.
Qed.

Lemma save_then_load_witness :
  allocated hello ∧ plain (content hello) ∧ terminated hello
  ∧ ∃ a', loadFromFile "copy.txt" (Some (text_of "hello")) hello
          = Done (a', LoadedFrom "copy.txt")
      ∧ saveToFile "notes.txt" true hello
        = Done (Some (text_of "hello"), SavedTo "notes.txt")
      ∧ content a' = content hello ∧ capacity a' = 6.
Proof.
  pose proof (proj1 (proj2 plain_state_hello)) as Hplain.
  pose proof (wf_allocated hello wf_hello) as Halloc.
  split; [exact Halloc |]. split; [exact Hplain |].
  split; [exact terminated_hello |].
  destruct (save_then_load "notes.txt" "copy.txt" hello Halloc Hplain
              terminated_hello)
    as (text & a' & Hsave & Hload & Hcontent & _ & Hcap & _).
  assert (Htext : text = text_of "hello").
  { pose proof Hsave as Hsaved. vm_compute in Hsaved.
    injection Hsaved as <-. reflexivity. }
  subst text. exists a'. split_and!; assumption.
Defined.

(** X20. [loadFromFile] is no step of the history: the [undo] after it
    does not bring back the text the file replaced but the one before
    the last recorded edit, and only when the loaded text is no longer
    than the capacity recorded then; behind a longer file it overruns
    the array it allocates.  The loaded text is what [redo] would then
    restore. *)
Theorem undo_after_load (filename : string) (file : list byte) (a0 a : t)
    (rest : list Memento) :
  allocated a0 ->
  CareTaker.undoStack (careTaker a) = rest ++ [snapshot a0] ->
  cstring file = file -> Z.of_nat (length file) + 1 < 2 ^ 64 ->
  ∃ a', loadFromFile filename (Some file) a = Done (a', LoadedFrom filename)
    ∧ (Z.of_nat (length file) <= capacity a0 ->
       ∃ a'', undo a' = Done (a'', [])
         ∧ buffer a'' = buffer a0 ∧ terminated a''
         ∧ CareTaker.undoStack (careTaker a'') = rest
         ∧ CareTaker.redoStack (careTaker a'')
           = CareTaker.redoStack (careTaker a) ++ [snapshot a'])
    ∧ (capacity a0 < Z.of_nat (length file) -> undo a' = Fault).
Proof.
  intros Halloc0 Hstack Hfix Hfits.
  destruct (loadFromFile_loaded filename file a Hfix Hfits)
    as (a' & Hrun & Hcontent & Hsize & Hcap & Hlen & Hterm & Hct & Hclip).
  assert (Halloc : allocated a') by (unfold allocated; lia).
  assert (Hstack' : CareTaker.undoStack (careTaker a') = rest ++ [snapshot a0])
    by (rewrite Hct; exact Hstack).
  exists a'. split; [exact Hrun |]. split.
  - intros Hroom.
    set (c1 := {| CareTaker.undoStack := rest;
                  CareTaker.redoStack :=
                    CareTaker.redoStack (careTaker a') ++ [snapshot a'] |}).
    destruct (restore_snapshot a0 (set_careTaker c1 a') Halloc0 Halloc)
      as (a'' & Hundo & Hcontent'' & Hsize'' & Hcap'' & Hterm'' & Hct'' & _).
    { right. cbn [set_careTaker size]. lia. }
    exists a''. split_and!.
    + rewrite (undo_pops a' rest (snapshot a0)
                 (allocated_storable a' Halloc) Hstack').
      exact Hundo.
    + unfold buffer. rewrite Hcontent'', Hsize'', Hcap''. reflexivity.
    + exact Hterm''.
    + rewrite Hct''. reflexivity.
    + rewrite Hct''. cbn [set_careTaker careTaker c1 CareTaker.redoStack].
      rewrite Hct. reflexivity.
  - intros Hlong.
    apply (undo_shrinking_faults a' rest (snapshot a0) Halloc Hstack').
    destruct Halloc0 as (Hsize0 & _). cbn [snapshot savedCapacity]. lia.
Qed.

Lemma undo_after_load_witness :
  allocated new
  ∧ CareTaker.undoStack (careTaker hello) = [] ++ [snapshot new]
  ∧ cstring (text_of "0123456789ab") = text_of "0123456789ab"
  ∧ Z.of_nat (length (text_of "0123456789ab")) + 1 < 2 ^ 64
  ∧ ∃ a', loadFromFile "notes.txt" (Some (text_of "0123456789ab")) hello
          = Done (a', LoadedFrom "notes.txt")
      ∧ undo a' = Fault.
Proof.
  pose proof (wf_allocated new wf_new) as Hnew.
  assert (Hstack : CareTaker.undoStack (careTaker hello) = [] ++ [snapshot new])
    by reflexivity.
  assert (Hfix : cstring (text_of "0123456789ab") = text_of "0123456789ab")
    by reflexivity.
  assert (Hfits : Z.of_nat (length (text_of "0123456789ab")) + 1 < 2 ^ 64)
    by (vm_compute; reflexivity).
  split; [exact Hnew |]. split; [exact Hstack |]. split; [exact Hfix |].
  split; [exact Hfits |].
  destruct (undo_after_load "notes.txt" (text_of "0123456789ab") new hello []
              Hnew Hstack Hfix Hfits) as (a' & Hrun & _ & Hfault).
  exists a'. split; [exact Hrun |]. apply Hfault. vm_compute. reflexivity.
Defined.

(** ** [resize] *)

(** X21. [resize] copies the [size] characters of the text and nothing
    else: towards a capacity that holds the text it keeps text and
    length and leaves every cell from [data[size]] on indeterminate, the
    place of the terminator included; towards a capacity below the
    length of the text its [memcpy] writes past the new array. *)
Theorem resize_copies_text_only (newCapacity : Z) (a : t) :
  allocated a ->
  (size a <= newCapacity ->
   ∃ a', resize newCapacity a = Some a'
     ∧ content a' = content a
     ∧ size a' = size a
     ∧ capacity a' = newCapacity
     ∧ Z.of_nat (length (data a')) = newCapacity
     ∧ careTaker a' = careTaker a
     ∧ clipboard a' = clipboard a
     ∧ ∀ i, size a <= i < newCapacity -> data a' !! Z.to_nat i = Some None)
  ∧ (0 <= newCapacity < size a -> resize newCapacity a = None).
Proof.
  intros ((Hsize & Hlt) & Hcap & Hlen). split.
  - intros Hroom. eexists. split; [apply resize_returns; lia |].
    unfold content. cbn [set_capacity set_data data size capacity careTaker
                           clipboard].
    split_and!; try reflexivity.
    + rewrite take_app_length'; [reflexivity | lengths].
    + lengths.
    + intros i Hi. unfold cell in Hlen. rewrite lookup_app_r by lengths.
      apply lookup_replicate_2. lengths.
  - intros Hsmall. unfold resize, memcpy. rewrite load_inside by lia.
    cbn [mbind option_bind]. unfold store.
    rewrite decide_False; [reflexivity |].
    rewrite length_take, length_drop, length_new_char. lia.
Qed.

Lemma resize_copies_text_only_witness :
  allocated hello
  ∧ (∃ a', resize 20 hello = Some a' ∧ content a' = content hello
       ∧ terminator a' = Some None)
  ∧ resize 3 hello = None.
Proof.
  pose proof (wf_allocated hello wf_hello) as Halloc.
  split; [exact Halloc |].
  destruct (resize_copies_text_only 20 hello Halloc) as (Hgrow & _).
  destruct (resize_copies_text_only 3 hello Halloc) as (_ & Hshrink).
  split.
  - destruct Hgrow as (a' & Hrun & Hcontent & Hsize & _ & _ & _ & _ & Hrest);
      [cbn; lia |].
    exists a'. split; [exact Hrun |]. split; [exact Hcontent |].
    unfold terminator. rewrite Hsize. apply Hrest. cbn. lia.
  - apply Hshrink. cbn. lia.
Defined.
